(** * solana-latency-checker: a shallow embedding of [main.go]

    The program fetches the peer list of a Solana cluster, pings every
    peer with at most [concurrency] probes in flight, and prints the
    peers with the lowest latency.

    Layout of the development:
    - the data model ([ClusterNode], [ClusterLatency], [ClusterNodes]);
    - the external packages the program calls (net/url, net/http,
      encoding/json, go-ping), taken as parameters; [sort.Slice] both as
      a parameter with what package sort promises of it and as package
      sort implements it;
    - [buildURL], [getClusterNodes], [printResult] as functions;
    - [checkLatency] as a transition system over an explicit state: the
      launching loop and every probe task advance by atomic steps, and a
      schedule (a list of labels) picks who moves next;
    - the theorems. *)

From Stdlib Require Import ZArith QArith Lia Ascii String.
From stdpp Require Import base list strings pretty.

Local Open Scope string_scope.
Local Open Scope nat_scope.
Local Open Scope list_scope.

(** ** Data model *)

(** A Go [error] value, identified by its message. *)
Definition error := string.

(** A Go [(T, error)] pair in which exactly one side is meaningful. *)
Inductive fallible (A : Type) :=
| Ok (a : A)
| Err (e : error).
Arguments Ok {A} a.
Arguments Err {A} e.

(** [time.Duration] is an [int64] count of nanoseconds. *)
Definition Duration := Z.

(** [Duration.Milliseconds]: integer division truncated towards zero. *)
Definition Milliseconds (d : Duration) : Z := (d ÷ 1000000)%Z.

Record ClusterNode := {
  FeatureSet : Z;
  Gossip : string;
  Pubkey : string;
  Rpc : string;
  ShredVersion : Z;
  Tpu : string;
  Version : string
}.

Record ClusterNodes := { Result : list ClusterNode }.

(** The [ClusterNode *ClusterNode] field points at the task's own copy of
    the loop variable ([node := node]), which nothing writes to afterwards;
    it is modelled by the record it points to. *)
Record ClusterLatency := {
  Time : Duration;
  IP : string;
  NodeRef : ClusterNode
}.

#[global] Instance ClusterNode_eq_dec : EqDecision ClusterNode.
Proof. solve_decision. Defined.

#[global] Instance ClusterLatency_eq_dec : EqDecision ClusterLatency.
Proof. solve_decision. Defined.

(** ** strings.Split with the separator ":" *)

(** [strings.Split(s, ":")]: the pieces of [s] between the colons; a string
    with [n] colons gives [n + 1] pieces. *)
Fixpoint split_colon (s : string) : list string :=
  match s with
  | EmptyString => [EmptyString]
  | String c r =>
      if Ascii.eqb c ":"%char then EmptyString :: split_colon r
      else match split_colon r with
           | h :: t => String c h :: t
           | [] => [String c EmptyString]
           end
  end.

(** ** Integer conversions *)

(** [int(top)] for a [uint] on a 64-bit platform: the same bits read as a
    signed number. *)
Definition int_of_uint (u : Z) : Z :=
  (if u <? 2 ^ 63 then u else u - 2 ^ 64)%Z.

(** ** net/url *)

(** What [buildURL] uses of package net/url. *)
Class NetURL := {
  URL : Type;
  url_Parse : string → fallible URL;
  URL_Scheme : URL → string;
  URL_Host : URL → string;
  URL_String : URL → string
}.

(** [fmt.Sprintf("http://api.%s.solana.com", urlKey)] *)
Definition api_url (urlKey : string) : string :=
  "http://api." +:+ urlKey +:+ ".solana.com".

Definition buildURL `{NetURL} (urlKey : string) : fallible string :=
  match url_Parse urlKey with
  | Err e => Err e
  | Ok u1 =>
      if String.eqb (URL_Scheme u1) EmptyString
         || String.eqb (URL_Host u1) EmptyString then
        match url_Parse (api_url urlKey) with
        | Err e => Err e
        | Ok u2 => Ok (URL_String u2)
        end
      else Ok (URL_String u1)
  end.

(** ** net/http, io/ioutil and encoding/json *)

(** What [getClusterNodes] uses of the three packages. *)
Class NetHTTP := {
  Response : Type;
  http_Post : string → string → string → fallible Response;
  ioutil_ReadAll : Response → fallible string;
  json_Unmarshal : string → fallible ClusterNodes
}.

(** The double-quote character, and a string between double quotes. *)
Definition dquote : string := String (ascii_of_nat 34) EmptyString.
Definition quoted (s : string) : string := dquote +:+ s +:+ dquote.

(** The request body of line 99. *)
Definition rpc_request : string :=
  "{" +:+ quoted "jsonrpc" +:+ ":" +:+ quoted "2.0" +:+ ","
  +:+ quoted "id" +:+ ":1, "
  +:+ quoted "method" +:+ ":" +:+ quoted "getClusterNodes" +:+ "}".

Definition getClusterNodes `{NetHTTP} (url : string) : fallible ClusterNodes :=
  match http_Post url "application/json" rpc_request with
  | Err e => Err e
  | Ok resp =>
      match ioutil_ReadAll resp with
      | Err e => Err e
      | Ok body =>
          match json_Unmarshal body with
          | Err e => Err e
          | Ok data => Ok data
          end
      end
  end.

(** ** sort.Slice and printResult *)

(** The arguments of one [fmt.Printf] call of line 167. *)
Record Line := {
  line_index : Z;
  line_ms : Z;
  line_ip : string;
  line_pubkey : string
}.

#[global] Instance Line_eq_dec : EqDecision Line.
Proof. solve_decision. Defined.

Definition newline : string := String (ascii_of_nat 10) EmptyString.

(** ["[%d] time:%dms, ip:%s, pubkey:%s\n"] *)
Definition format_line (l : Line) : string :=
  "[" +:+ pretty (line_index l) +:+ "] time:" +:+ pretty (line_ms l)
  +:+ "ms, ip:" +:+ line_ip l +:+ ", pubkey:" +:+ line_pubkey l +:+ newline.

(** How [printResult] ends: it returns, or [latency[i]] is out of range
    and the runtime panics; either way [out] has been printed. *)
Inductive printed :=
| Returned (out : list Line)
| Panicked (out : list Line).

Definition lines_of (p : printed) : list Line :=
  match p with Returned out | Panicked out => out end.

Definition emit (l : Line) (p : printed) : printed :=
  match p with
  | Returned out => Returned (l :: out)
  | Panicked out => Panicked (l :: out)
  end.

Definition line_of (i : nat) (e : ClusterLatency) : Line :=
  {| line_index := Z.of_nat i;
     line_ms := Milliseconds (Time e);
     line_ip := IP e;
     line_pubkey := Pubkey (NodeRef e) |}.

(** [for ; i < count; i++ { Printf(..., latency[i], ...) }] with [n]
    iterations left. *)
Fixpoint print_loop (latency : list ClusterLatency) (i n : nat) : printed :=
  match n with
  | 0 => Returned []
  | S n' =>
      match latency !! i with
      | None => Panicked []
      | Some e => emit (line_of i e) (print_loop latency (S i) n')
      end
  end.

(** The closure handed to [sort.Slice], on the elements it compares. *)
Definition less_Time (a b : ClusterLatency) : bool := (Time a <? Time b)%Z.

(** [sort.Slice] on a slice of [ClusterLatency], as a function from the
    slice before to the slice after. The call rearranges the elements in
    place: [len(latency)] stays the length of the argument, and
    [latency[i]] reads the rearranged elements. *)
Definition sorter : Type :=
  (ClusterLatency → ClusterLatency → bool) →
  list ClusterLatency → list ClusterLatency.

Definition printResult (sort_Slice : sorter)
    (latency : list ClusterLatency) (top : Z) : printed :=
  let sorted := sort_Slice less_Time latency in
  let count := int_of_uint top in
  let count :=
    if Nat.ltb (length latency) 10 then Z.of_nat (length latency) else count in
  print_loop sorted 0 (Z.to_nat count).

(** What package sort promises of [sort.Slice]: the slice is rearranged,
    and afterwards no element is [less] than one before it. The package
    does not promise to keep equal elements in their order
    ([sort.SliceStable] does). *)
Definition ascending (l : list ClusterLatency) : Prop :=
  ∀ i j a b, i < j → l !! i = Some a → l !! j = Some b →
             (Time a ≤ Time b)%Z.

Record sort_contract (sort_Slice : sorter) : Prop := {
  sort_permutes : ∀ l, sort_Slice less_Time l ≡ₚ l;
  sort_ascends : ∀ l, ascending (sort_Slice less_Time l)
}.

(** A sorting function that meets the contract: insertion sort, which
    puts an element before the elements it is not greater than. *)
Fixpoint insert_by (less : ClusterLatency → ClusterLatency → bool)
    (x : ClusterLatency) (l : list ClusterLatency) : list ClusterLatency :=
  match l with
  | [] => [x]
  | y :: l' => if less y x then y :: insert_by less x l' else x :: y :: l'
  end.

Definition insertion_sort : sorter :=
  fun less l => foldr (insert_by less) [] l.

(** ** Package sort: the implementation of sort.Slice

    [sort.Slice] as package sort implements it since Go 1.19: the
    pattern-defeating quicksort of zsortfunc.go, driven by [less] on
    indices and by swaps of two elements. Slices of at most 12 elements
    are sorted by insertion; longer ones are partitioned around a pivot,
    and a partition moves elements across others of equal rank. Loops run
    on fuel that the bounds of the loop never exhaust. *)
Section GoSort.
Context (less : ClusterLatency → ClusterLatency → bool).

(** [data.Less(i, j)] and [data.Swap(i, j)]. *)
Definition Less (data : list ClusterLatency) (i j : nat) : bool :=
  match data !! i, data !! j with
  | Some x, Some y => less x y
  | _, _ => false
  end.

Definition Swap (data : list ClusterLatency) (i j : nat)
    : list ClusterLatency :=
  match data !! i, data !! j with
  | Some x, Some y => <[i:=y]> (<[j:=x]> data)
  | _, _ => data
  end.

(** [for j := i; j > a && data.Less(j, j-1); j-- { data.Swap(j, j-1) }] *)
Fixpoint insertion_shift (data : list ClusterLatency) (a j : nat)
    : list ClusterLatency :=
  match j with
  | 0 => data
  | S j' =>
      if Nat.ltb a j && Less data j j'
      then insertion_shift (Swap data j j') a j'
      else data
  end.

Definition insertionSort_func (data : list ClusterLatency) (a b : nat)
    : list ClusterLatency :=
  foldl (fun d i => insertion_shift d a i) data (seq (a + 1) (b - (a + 1))).

Fixpoint siftDown_func (fuel : nat) (data : list ClusterLatency)
    (root hi first : nat) : list ClusterLatency :=
  match fuel with
  | 0 => data
  | S fuel' =>
      let child := 2 * root + 1 in
      if Nat.leb hi child then data
      else
        let child :=
          if Nat.ltb (child + 1) hi
             && Less data (first + child) (first + child + 1)
          then child + 1 else child in
        if negb (Less data (first + root) (first + child)) then data
        else siftDown_func fuel' (Swap data (first + root) (first + child))
               child hi first
  end.

Definition heapSort_func (data : list ClusterLatency) (a b : nat)
    : list ClusterLatency :=
  let first := a in
  let hi := b - a in
  let data :=
    foldl (fun d i => siftDown_func hi d i hi first) data
          (reverse (seq 0 ((hi - 1) / 2 + 1))) in
  foldl (fun d i => siftDown_func hi (Swap d first (first + i)) 0 i first)
        data (reverse (seq 0 hi)).

(** [for i <= j && data.Less(i, a) { i++ }] and
    [for i <= j && !data.Less(j, a) { j-- }] *)
Fixpoint scan_less (fuel : nat) (data : list ClusterLatency)
    (a i j : nat) : nat :=
  match fuel with
  | 0 => i
  | S fuel' =>
      if Nat.leb i j && Less data i a then scan_less fuel' data a (S i) j
      else i
  end.

Fixpoint scan_not_less (fuel : nat) (data : list ClusterLatency)
    (a i j : nat) : nat :=
  match fuel with
  | 0 => j
  | S fuel' =>
      if Nat.leb i j && negb (Less data j a)
      then scan_not_less fuel' data a i (j - 1)
      else j
  end.

(** The loop of [partition_func] after the first swap; it returns the
    slice and [j]. *)
Fixpoint partition_loop (fuel : nat) (data : list ClusterLatency)
    (a i j : nat) : list ClusterLatency * nat :=
  match fuel with
  | 0 => (data, j)
  | S fuel' =>
      let i := scan_less (length data) data a i j in
      let j := scan_not_less (length data) data a i j in
      if Nat.ltb j i then (data, j)
      else partition_loop fuel' (Swap data i j) a (S i) (j - 1)
  end.

(** [partition_func]: the slice, the new place of the pivot, and whether
    the slice was already partitioned. *)
Definition partition_func (data : list ClusterLatency) (a b pivot : nat)
    : list ClusterLatency * nat * bool :=
  let data := Swap data a pivot in
  let i := scan_less (length data) data a (a + 1) (b - 1) in
  let j := scan_not_less (length data) data a i (b - 1) in
  if Nat.ltb j i then (Swap data j a, j, true)
  else
    let data := Swap data i j in
    let '(data, j) := partition_loop (length data) data a (S i) (j - 1) in
    (Swap data j a, j, false).

(** [for i <= j && !data.Less(a, i) { i++ }] and
    [for i <= j && data.Less(a, j) { j-- }] *)
Fixpoint scan_equal (fuel : nat) (data : list ClusterLatency)
    (a i j : nat) : nat :=
  match fuel with
  | 0 => i
  | S fuel' =>
      if Nat.leb i j && negb (Less data a i)
      then scan_equal fuel' data a (S i) j
      else i
  end.

Fixpoint scan_greater (fuel : nat) (data : list ClusterLatency)
    (a i j : nat) : nat :=
  match fuel with
  | 0 => j
  | S fuel' =>
      if Nat.leb i j && Less data a j
      then scan_greater fuel' data a i (j - 1)
      else j
  end.

Fixpoint partitionEqual_loop (fuel : nat) (data : list ClusterLatency)
    (a i j : nat) : list ClusterLatency * nat :=
  match fuel with
  | 0 => (data, i)
  | S fuel' =>
      let i := scan_equal (length data) data a i j in
      let j := scan_greater (length data) data a i j in
      if Nat.ltb j i then (data, i)
      else partitionEqual_loop fuel' (Swap data i j) a (S i) (j - 1)
  end.

Definition partitionEqual_func (data : list ClusterLatency) (a b pivot : nat)
    : list ClusterLatency * nat :=
  partitionEqual_loop (S (length data)) (Swap data a pivot) a (a + 1) (b - 1).

(** [for i < b && !data.Less(i, i-1) { i++ }] *)
Fixpoint skip_ordered (fuel : nat) (data : list ClusterLatency)
    (i b : nat) : nat :=
  match fuel with
  | 0 => i
  | S fuel' =>
      if Nat.ltb i b && negb (Less data i (i - 1))
      then skip_ordered fuel' data (S i) b
      else i
  end.

(** [for j := i - 1; j >= 1; j-- { if !data.Less(j, j-1) { break };
    data.Swap(j, j-1) }] *)
Fixpoint shift_left (data : list ClusterLatency) (j : nat)
    : list ClusterLatency :=
  match j with
  | 0 => data
  | S j' =>
      if negb (Less data j j') then data else shift_left (Swap data j j') j'
  end.

(** [for j := i + 1; j < b; j++ { if !data.Less(j, j-1) { break };
    data.Swap(j, j-1) }] *)
Fixpoint shift_right (fuel : nat) (data : list ClusterLatency)
    (j b : nat) : list ClusterLatency :=
  match fuel with
  | 0 => data
  | S fuel' =>
      if Nat.ltb j b then
        if negb (Less data j (j - 1)) then data
        else shift_right fuel' (Swap data j (j - 1)) (S j) b
      else data
  end.

(** The loop of [partialInsertionSort_func], with [steps] rounds left of
    its [maxSteps] = 5; slices shorter than [shortestShifting] = 50 are
    never shifted. *)
Fixpoint partial_steps (steps : nat) (data : list ClusterLatency)
    (a b i : nat) : list ClusterLatency * bool :=
  match steps with
  | 0 => (data, false)
  | S steps' =>
      let i := skip_ordered (length data) data i b in
      if Nat.eqb i b then (data, true)
      else if Nat.ltb (b - a) 50 then (data, false)
      else
        let data := Swap data i (i - 1) in
        let data :=
          if Nat.leb 2 (i - a) then shift_left data (i - 1) else data in
        let data :=
          if Nat.leb 2 (b - i) then shift_right (length data) data (i + 1) b
          else data in
        partial_steps steps' data a b i
  end.

Definition partialInsertionSort_func (data : list ClusterLatency) (a b : nat)
    : list ClusterLatency * bool :=
  partial_steps 5 data a b (a + 1).

(** [bits.Len] *)
Definition bits_Len (n : nat) : nat :=
  if Nat.eqb n 0 then 0 else S (Nat.log2 n).

(** [xorshift.Next] on a [uint64]. *)
Definition xorshift_Next (r : Z) : Z :=
  let wrap x := Z.land x (2 ^ 64 - 1) in
  let r := Z.lxor r (wrap (Z.shiftl r 13)) in
  let r := Z.lxor r (Z.shiftr r 7) in
  Z.lxor r (wrap (Z.shiftl r 17)).

(** The three swaps of [breakPatterns_func], [i] counting them. *)
Fixpoint break_swaps (n : nat) (data : list ClusterLatency)
    (random : Z) (modulus : Z) (len a idx i : nat) : list ClusterLatency :=
  match n with
  | 0 => data
  | S n' =>
      let random := xorshift_Next random in
      let other := Z.to_nat (Z.land random (modulus - 1)) in
      let other := if Nat.leb len other then other - len else other in
      break_swaps n' (Swap data (idx - 1 + i) (a + other))
        random modulus len a idx (S i)
  end.

Definition breakPatterns_func (data : list ClusterLatency) (a b : nat)
    : list ClusterLatency :=
  let len := b - a in
  if Nat.leb 8 len then
    let random := Z.of_nat len in
    let modulus := (2 ^ Z.of_nat (bits_Len len))%Z in
    let idx := a + (len / 4) * 2 - 1 in
    break_swaps 3 data random modulus len a idx 0
  else data.

Inductive sortedHint :=
| unknownHint
| increasingHint
| decreasingHint.

(** [order2_func], [median_func] and [medianAdjacent_func], with the
    count of swaps threaded through. *)
Definition order2_func (data : list ClusterLatency) (a b swaps : nat)
    : nat * nat * nat :=
  if Less data b a then (b, a, S swaps) else (a, b, swaps).

Definition median_func (data : list ClusterLatency) (a b c swaps : nat)
    : nat * nat :=
  let '(a, b, swaps) := order2_func data a b swaps in
  let '(b, c, swaps) := order2_func data b c swaps in
  let '(a, b, swaps) := order2_func data a b swaps in
  (b, swaps).

Definition medianAdjacent_func (data : list ClusterLatency) (a swaps : nat)
    : nat * nat :=
  median_func data (a - 1) a (a + 1) swaps.

Definition choosePivot_func (data : list ClusterLatency) (a b : nat)
    : nat * sortedHint :=
  let l := b - a in
  let i := a + l / 4 * 1 in
  let j := a + l / 4 * 2 in
  let k := a + l / 4 * 3 in
  let '(j, swaps) :=
    if Nat.leb 8 l then
      let '(i, j, k, swaps) :=
        if Nat.leb 50 l then
          let '(i, swaps) := medianAdjacent_func data i 0 in
          let '(j, swaps) := medianAdjacent_func data j swaps in
          let '(k, swaps) := medianAdjacent_func data k swaps in
          (i, j, k, swaps)
        else (i, j, k, 0) in
      median_func data i j k swaps
    else (j, 0) in
  if Nat.eqb swaps 0 then (j, increasingHint)
  else if Nat.eqb swaps 12 then (j, decreasingHint)
  else (j, unknownHint).

(** [for i < j { data.Swap(i, j); i++; j-- }] *)
Fixpoint reverse_loop (fuel : nat) (data : list ClusterLatency)
    (i j : nat) : list ClusterLatency :=
  match fuel with
  | 0 => data
  | S fuel' =>
      if Nat.ltb i j then reverse_loop fuel' (Swap data i j) (S i) (j - 1)
      else data
  end.

Definition reverseRange_func (data : list ClusterLatency) (a b : nat)
    : list ClusterLatency :=
  reverse_loop (length data) data a (b - 1).

(** [pdqsort_func]: one round of its loop per unit of fuel, the two
    flags of the loop as arguments; a recursive call starts with both
    flags set. *)
Fixpoint pdqsort_func (fuel : nat) (data : list ClusterLatency)
    (a b limit : nat) (wasBalanced wasPartitioned : bool)
    : list ClusterLatency :=
  match fuel with
  | 0 => data
  | S fuel' =>
      let len := b - a in
      if Nat.leb len 12 then insertionSort_func data a b
      else if Nat.eqb limit 0 then heapSort_func data a b
      else
        let '(data, limit) :=
          if wasBalanced then (data, limit)
          else (breakPatterns_func data a b, limit - 1) in
        let '(pivot, hint) := choosePivot_func data a b in
        let '(data, pivot, hint) :=
          match hint with
          | decreasingHint =>
              (reverseRange_func data a b, (b - 1) - (pivot - a),
               increasingHint)
          | _ => (data, pivot, hint)
          end in
        let '(data, sorted) :=
          match hint with
          | increasingHint =>
              if wasBalanced && wasPartitioned
              then partialInsertionSort_func data a b
              else (data, false)
          | _ => (data, false)
          end in
        if sorted then data
        else if Nat.ltb 0 a && negb (Less data (a - 1) pivot) then
          let '(data, mid) := partitionEqual_func data a b pivot in
          pdqsort_func fuel' data mid b limit wasBalanced wasPartitioned
        else
          let '(data, mid, alreadyPartitioned) :=
            partition_func data a b pivot in
          let leftLen := mid - a in
          let rightLen := b - mid in
          let balanceThreshold := len / 8 in
          if Nat.ltb leftLen rightLen then
            let data := pdqsort_func fuel' data a mid limit true true in
            pdqsort_func fuel' data (mid + 1) b limit
              (Nat.leb balanceThreshold leftLen) alreadyPartitioned
          else
            let data :=
              pdqsort_func fuel' data (mid + 1) b limit true true in
            pdqsort_func fuel' data a mid limit
              (Nat.leb balanceThreshold rightLen) alreadyPartitioned
  end.

End GoSort.

(** [sort.Slice(x, less)]: every round of [pdqsort_func] on a range longer
    than 12 shortens the range, so one unit of fuel per element and one
    more are enough. *)
Definition go_Slice : sorter :=
  fun less data =>
    pdqsort_func less (S (length data)) data 0 (length data)
      (bits_Len (length data)) true true.

(** ** go-ping *)

(** The two fields of [ping.Statistics] the program reads. *)
Record Statistics := {
  PacketLoss : Q;
  AvgRtt : Duration
}.

(** What a probe meets on the network: [ping.NewPinger] fails, or
    [pinger.Run] fails, or the run ends and [pinger.Statistics] is read. *)
Inductive PingOutcome :=
| NewPingerFails (e : error)
| RunFails (e : error)
| RunReturns (st : Statistics).

(** The network as the run finds it: the outcome of the probe launched for
    the peer at each position of the list. *)
Definition world := nat → PingOutcome.

(** ** checkLatency *)

Definition concurrency : nat := 20.

Definition invalid_gossip : error := "invalid gossip ip".

(** Where a probe task stands in the closure of lines 128-151. Reading
    [result] and storing the appended slice back are two steps: nothing in
    the closure orders them with the other tasks. The steps of different
    tasks interleave. A slice is the list of its elements as long as the
    appends do not race; see [race_step] for those that do. *)
Inductive task_pc :=
| TProbe
| TAppendRead (e : ClusterLatency)
| TAppendWrite (e : ClusterLatency) (seen : list ClusterLatency)
| TIncrement
| TDefer (r : option error)
| TErrgroup (r : option error)
| TDone (r : option error).

Record task := Task {
  t_node : ClusterNode;
  t_pc : task_pc
}.

(** Lines 130-146: from the split of the gossip address to the test of the
    packet loss. A task that fails returns before [bar.Increment]. *)
Definition after_probe (node : ClusterNode) (o : PingOutcome) : task_pc :=
  let split := split_colon (Gossip node) in
  if negb (Nat.eqb (length split) 2) then TDefer (Some invalid_gossip)
  else
    match o with
    | NewPingerFails e => TDefer (Some e)
    | RunFails e => TDefer (Some e)
    | RunReturns st =>
        if Qeq_bool (PacketLoss st) 0 then
          TAppendRead {| Time := AvgRtt st;
                         IP := default EmptyString (split !! 0);
                         NodeRef := node |}
        else TIncrement
    end.

(** What [checkLatency] returns: the slice ([None] for [nil]) and the error. *)
Definition returned : Type := option (list ClusterLatency) * option error.

(** Where the goroutine that runs [checkLatency] stands: at the top of the
    loop (line 126, or line 153 when the range is exhausted), holding a
    slot before [eg.Go] (line 128), in [eg.Wait] (line 154), or returned. *)
Inductive main_pc :=
| MSend
| MGo
| MWait
| MReturned (r : returned).

Record state := State {
  main_at : main_pc;
  todo : list ClusterNode;
  tasks : list task;
  sem : nat;
  result : list ClusterLatency;
  bar_current : nat;
  bar_finished : bool;
  eg_err : option error
}.

Definition init (nodes : list ClusterNode) : state :=
  State MSend nodes [] 0 [] 0 false None.

Definition is_done (t : task) : bool :=
  match t_pc t with TDone _ => true | _ => false end.

(** [eg.Wait] has returned [err]: lines 154-157. *)
Definition wait_returns (s : state) : returned :=
  match eg_err s with
  | Some e => (None, Some e)
  | None => (Some (result s), None)
  end.

(** One step of the launching goroutine. *)
Definition main_step (s : state) : option state :=
  match main_at s, todo s with
  | MSend, [] =>
      Some (State MWait [] (tasks s) (sem s) (result s)
                  (bar_current s) true (eg_err s))
  | MSend, _ :: _ =>
      if decide (sem s < concurrency) then
        Some (State MGo (todo s) (tasks s) (S (sem s)) (result s)
                    (bar_current s) (bar_finished s) (eg_err s))
      else None
  | MGo, node :: rest =>
      Some (State MSend rest (tasks s ++ [Task node TProbe]) (sem s)
                  (result s) (bar_current s) (bar_finished s) (eg_err s))
  | MGo, [] => None
  | MWait, _ =>
      if forallb is_done (tasks s) then
        Some (State (MReturned (wait_returns s)) (todo s) (tasks s) (sem s)
                    (result s) (bar_current s) (bar_finished s) (eg_err s))
      else None
  | MReturned _, _ => None
  end.

(** The task at position [i] moves to [pc]. *)
Definition goto (i : nat) (node : ClusterNode) (pc : task_pc)
    (s : state) : list task :=
  <[i := Task node pc]> (tasks s).

(** [errgroup] keeps the first error a task returns. *)
Definition first_error (old r : option error) : option error :=
  match old with Some e => Some e | None => r end.

(** One step of the task launched for the peer at position [i]. *)
Definition task_step (w : world) (i : nat) (s : state) : option state :=
  match tasks s !! i with
  | None => None
  | Some (Task node pc) =>
      match pc with
      | TProbe =>
          Some (State (main_at s) (todo s)
                      (goto i node (after_probe node (w i)) s)
                      (sem s) (result s) (bar_current s) (bar_finished s)
                      (eg_err s))
      | TAppendRead e =>
          Some (State (main_at s) (todo s)
                      (goto i node (TAppendWrite e (result s)) s)
                      (sem s) (result s) (bar_current s) (bar_finished s)
                      (eg_err s))
      | TAppendWrite e seen =>
          Some (State (main_at s) (todo s) (goto i node TIncrement s)
                      (sem s) (seen ++ [e]) (bar_current s) (bar_finished s)
                      (eg_err s))
      | TIncrement =>
          Some (State (main_at s) (todo s) (goto i node (TDefer None) s)
                      (sem s) (result s) (S (bar_current s)) (bar_finished s)
                      (eg_err s))
      | TDefer r =>
          match sem s with
          | 0 => None
          | S k =>
              Some (State (main_at s) (todo s) (goto i node (TErrgroup r) s)
                          k (result s) (bar_current s) (bar_finished s)
                          (eg_err s))
          end
      | TErrgroup r =>
          Some (State (main_at s) (todo s) (goto i node (TDone r) s)
                      (sem s) (result s) (bar_current s) (bar_finished s)
                      (first_error (eg_err s) r))
      | TDone _ => None
      end
  end.

(** The store of an append that has raced. Line 147 takes no lock and
    [append] works in place, word by word, on a backing array the tasks
    share. When [result] no longer holds what this task read, another task
    has stored it in between: the two appends have raced and the language
    does not say what the slice holds after the store. [task_step] stores the slice read plus
    the entry, which loses the other append; any other content [v] is as
    possible (an entry written over, an entry left at its zero value) and
    is the step below. A torn entry is a value of [ClusterLatency] like
    any other: a nil [*ClusterNode] is not represented. *)
Definition race_step (i : nat) (v : list ClusterLatency)
    (s : state) : option state :=
  match tasks s !! i with
  | Some (Task node (TAppendWrite e seen)) =>
      if decide (seen = result s) then None
      else
        Some (State (main_at s) (todo s) (goto i node TIncrement s)
                    (sem s) v (bar_current s) (bar_finished s) (eg_err s))
  | _ => None
  end.

(** Who moves next, and for a raced store what it leaves in [result]. *)
Inductive label :=
| LMain
| LTask (i : nat)
| LRace (i : nat) (v : list ClusterLatency).

Definition step (w : world) (l : label) (s : state) : option state :=
  match l with
  | LMain => main_step s
  | LTask i => task_step w i s
  | LRace i v => race_step i v s
  end.

(** A schedule is run from a state; [None] when it asks for a step that
    is blocked or does not exist. *)
Fixpoint exec (w : world) (sched : list label) (s : state) : option state :=
  match sched with
  | [] => Some s
  | l :: sched' =>
      match step w l s with
      | None => None
      | Some s' => exec w sched' s'
      end
  end.

(** [checkLatency] under a schedule that runs it to its return. *)
Definition checkLatency (w : world) (sched : list label)
    (clusterNodes : ClusterNodes) : option returned :=
  match exec w sched (init (Result clusterNodes)) with
  | Some s => match main_at s with MReturned r => Some r | _ => None end
  | None => None
  end.

(** ** The command *)

(** How the process ends: [main] returns (status 0), [log.Fatal] prints the
    error and exits with status 1, or the runtime panics (status 2). *)
Inductive ending :=
| Exit0 (out : list Line)
| Fatal (e : error)
| Panic (out : list Line).

Definition exit_code (e : ending) : Z :=
  match e with Exit0 _ => 0 | Fatal _ => 1 | Panic _ => 2 end%Z.

Definition stdout (e : ending) : list string :=
  match e with
  | Exit0 out | Panic out => format_line <$> out
  | Fatal _ => []
  end.

(** The messages [log.Fatal] writes. *)
Definition logged (e : ending) : list error :=
  match e with Fatal m => [m] | _ => [] end.

(** A run of the command: how it ended, and the state the probing engine
    was left in ([None] when [checkLatency] was never called). *)
Record run := Run {
  ended : ending;
  fanout : option state
}.

Section Command.
Context {net_url : NetURL} {net_http : NetHTTP}.
Variable sort_Slice : sorter.
Variable w : world.

(** [app.Action] (lines 44-59) followed by [main] (lines 23-27), for the
    values of the two flags and a schedule of the probing engine; [None]
    when the schedule does not run [checkLatency] to its return. *)
Definition main (urlKey : string) (top : Z) (sched : list label)
    : option run :=
  match buildURL urlKey with
  | Err e => Some (Run (Fatal e) None)
  | Ok url =>
      match getClusterNodes url with
      | Err e => Some (Run (Fatal e) None)
      | Ok nodes =>
          match exec w sched (init (Result nodes)) with
          | None => None
          | Some s =>
              match main_at s with
              | MReturned (_, Some e) => Some (Run (Fatal e) (Some s))
              | MReturned (latency, None) =>
                  match printResult sort_Slice (default [] latency) top with
                  | Returned out => Some (Run (Exit0 out) (Some s))
                  | Panicked out => Some (Run (Panic out) (Some s))
                  end
              | _ => None
              end
          end
      end
  end.
End Command.

(** ** A fragment of net/url, for running examples

    Enough of [url.Parse] for addresses of the shape [scheme://host/path]
    and for bare network names: the scheme is found as [getScheme] does
    (letters, then digits and [+ - .], up to the first colon; a leading
    colon is the error "missing protocol scheme") and is lower-cased, the
    host is what stands between [//] and the next slash. *)
Module UrlFragment.

Record url := { scheme : string; host : string; path : string }.

Definition is_alpha (c : ascii) : bool :=
  let n := nat_of_ascii c in
  (Nat.leb 97 n && Nat.leb n 122) || (Nat.leb 65 n && Nat.leb n 90).

Definition is_scheme_char (c : ascii) : bool :=
  let n := nat_of_ascii c in
  (Nat.leb 48 n && Nat.leb n 57) || Nat.eqb n 43 || Nat.eqb n 45
  || Nat.eqb n 46.

Definition to_lower (c : ascii) : ascii :=
  let n := nat_of_ascii c in
  if Nat.leb 65 n && Nat.leb n 90 then ascii_of_nat (n + 32) else c.

Fixpoint lower (s : string) : string :=
  match s with
  | EmptyString => EmptyString
  | String c r => String (to_lower c) (lower r)
  end.

(** The loop of [getScheme]: [Some (scheme, rest)] when a colon ends a
    well-formed scheme, [None] when the text has no scheme; [first]
    tells whether the scan is at the first byte. *)
Fixpoint scan (first : bool) (s : string)
    : fallible (option (string * string)) :=
  match s with
  | EmptyString => Ok None
  | String c r =>
      let continue :=
        match scan false r with
        | Ok (Some (p, rest)) => Ok (Some (String c p, rest))
        | other => other
        end in
      if is_alpha c then continue
      else if is_scheme_char c then (if first then Ok None else continue)
      else if Ascii.eqb c ":"%char then
        (if first then Err "missing protocol scheme"
         else Ok (Some (EmptyString, r)))
      else Ok None
  end.

(** The text up to the first slash, and the text from it. *)
Fixpoint cut_slash (s : string) : string * string :=
  match s with
  | EmptyString => (EmptyString, EmptyString)
  | String c r =>
      if Ascii.eqb c "/"%char then (EmptyString, s)
      else let '(h, p) := cut_slash r in (String c h, p)
  end.

Definition authority (rest : string) : string * string :=
  match rest with
  | String a (String b r) =>
      if Ascii.eqb a "/"%char && Ascii.eqb b "/"%char then cut_slash r
      else (EmptyString, rest)
  | _ => (EmptyString, rest)
  end.

Definition Parse (rawURL : string) : fallible url :=
  match scan true rawURL with
  | Err e => Err ("parse " +:+ quoted rawURL +:+ ": " +:+ e)
  | Ok None =>
      let '(h, p) := authority rawURL in
      Ok {| scheme := EmptyString; host := h; path := p |}
  | Ok (Some (sch, rest)) =>
      let '(h, p) := authority rest in
      Ok {| scheme := lower sch; host := h; path := p |}
  end.

Definition to_string (u : url) : string :=
  (if String.eqb (scheme u) EmptyString then EmptyString
   else scheme u +:+ ":")
  +:+ (if String.eqb (host u) EmptyString then EmptyString
       else "//" +:+ host u)
  +:+ path u.

#[local] Instance net_url : NetURL := {|
  URL := url;
  url_Parse := Parse;
  URL_Scheme := scheme;
  URL_Host := host;
  URL_String := to_string
|}.

End UrlFragment.

(** ** Running the model on the scenario of the specification *)
Module Scenario.

Definition peer (gossip pubkey : string) : ClusterNode :=
  {| FeatureSet := 0; Gossip := gossip; Pubkey := pubkey;
     Rpc := EmptyString; ShredVersion := 0; Tpu := EmptyString;
     Version := EmptyString |}.

Definition A := peer "10.0.0.1:8001" "A".
Definition B := peer "bad-address" "B".
Definition C := peer "10.0.0.2:8001" "C".

Definition ms (n : Z) : Duration := (n * 1000000)%Z.

Definition clean (rtt : Duration) : PingOutcome :=
  RunReturns {| PacketLoss := 0; AvgRtt := rtt |}.

Definition lossy (rtt : Duration) : PingOutcome :=
  RunReturns {| PacketLoss := 20; AvgRtt := rtt |}.

(** A answers in 50 ms, C in 20 ms; B's outcome is never looked at. *)
Definition net : world :=
  fun i => match i with 0 => clean (ms 50) | _ => clean (ms 20) end.

(** The task at position [i] runs from its launch to its end. *)
Definition whole_task (i : nat) : list label := replicate 6 (LTask i).

(** One peer after the other: launch, then run the task to its end. *)
Fixpoint one_by_one (i n : nat) : list label :=
  match n with
  | 0 => [LMain; LMain]
  | S n' => [LMain; LMain] ++ whole_task i ++ one_by_one (S i) n'
  end.

(** A server that answers with a given peer list. *)
Definition serving (nodes : list ClusterNode) : NetHTTP := {|
  Response := unit;
  http_Post := fun _ _ _ => Ok tt;
  ioutil_ReadAll := fun _ => Ok EmptyString;
  json_Unmarshal := fun _ => Ok {| Result := nodes |}
|}.

(** A server whose answer is not JSON. *)
Definition garbled : NetHTTP := {|
  Response := unit;
  http_Post := fun _ _ _ => Ok tt;
  ioutil_ReadAll := fun _ => Ok "<html>";
  json_Unmarshal := fun _ => Err "invalid character '<' looking for beginning of value"
|}.

(** The measurements of A and C. *)
Definition eA : ClusterLatency :=
  {| Time := ms 50; IP := "10.0.0.1"; NodeRef := A |}.
Definition eC : ClusterLatency :=
  {| Time := ms 20; IP := "10.0.0.2"; NodeRef := C |}.

(** The loop takes a slot and launches the next task. *)
Definition launch : list label := [LMain; LMain].

(** A task whose probe fails runs from its launch to its end. *)
Definition failing_task (i : nat) : list label := replicate 3 (LTask i).

(** [A; B; C], one peer after the other. *)
Definition abc_sched : list label :=
  launch ++ whole_task 0 ++ launch ++ failing_task 1
  ++ launch ++ whole_task 2 ++ [LMain; LMain].

(** Two tasks are launched and both read [result] before either stores. *)
Definition overlap_sched : list label :=
  launch ++ launch
  ++ [LTask 0; LTask 1; LTask 0; LTask 1; LTask 0; LTask 1]
  ++ replicate 3 (LTask 0) ++ replicate 3 (LTask 1) ++ [LMain; LMain].

(** One task is launched and the loop ends before the task has moved. *)
Definition early_finish : list label := launch ++ [LMain].

(** Three measurements, in append order. *)
Definition three : list ClusterLatency :=
  [ {| Time := ms 50; IP := "10.0.0.1"; NodeRef := peer "10.0.0.1:8001" "A" |};
    {| Time := ms 20; IP := "10.0.0.2"; NodeRef := peer "10.0.0.2:8001" "C" |};
    {| Time := ms 30; IP := "10.0.0.3"; NodeRef := peer "10.0.0.3:8001" "D" |} ].

(** A measurement of [n] ms for the peer named [key]. *)
Definition entry (n : Z) (key : string) : ClusterLatency :=
  {| Time := ms n; IP := "10.0.0.1"; NodeRef := peer "10.0.0.1:8001" key |}.

(** Thirteen measurements in append order: twelve of 5 ms, named A to L,
    then one of 1 ms. *)
Definition thirteen : list ClusterLatency :=
  (entry 5 <$> ["A"; "B"; "C"; "D"; "E"; "F"; "G"; "H"; "I"; "J"; "K"; "L"])
  ++ [entry 1 "M"].

(** A network on which the probe of the first peer cannot open its
    socket and the others answer in 20 ms. *)
Definition denied : world :=
  fun i =>
    match i with
    | 0 => RunFails "socket: operation not permitted"
    | _ => clean (ms 20)
    end.

(** Five peers that all answer in 20 ms, and their measurements. *)
Definition five : list ClusterNode :=
  (fun key => peer ("10.0.0.9:" +:+ key) key) <$> ["1"; "2"; "3"; "4"; "5"].

Definition quick : world := fun _ => clean (ms 20).

Definition e5 (key : string) : ClusterLatency :=
  {| Time := ms 20; IP := "10.0.0.9";
     NodeRef := peer ("10.0.0.9:" +:+ key) key |}.

(** The zero value of [ClusterLatency], its pointer apart. *)
Definition zero_entry : ClusterLatency :=
  {| Time := 0%Z; IP := EmptyString;
     NodeRef := peer EmptyString EmptyString |}.

(** The tasks of peers 1 and 2 append; the task of peer 4 reads; the task
    of peer 3 appends; the task of peer 5 reads; the task of peer 4
    stores, losing the append of peer 3; the store of the task of peer 5
    has raced and leaves [v]. *)
Definition raced_sched (v : list ClusterLatency) : list label :=
  replicate 10 LMain
  ++ replicate 3 (LTask 0) ++ replicate 3 (LTask 1)
  ++ replicate 2 (LTask 3) ++ replicate 3 (LTask 2)
  ++ replicate 2 (LTask 4) ++ [LTask 3; LRace 4 v]
  ++ replicate 3 (LTask 0) ++ replicate 3 (LTask 1)
  ++ replicate 3 (LTask 2) ++ replicate 3 (LTask 3)
  ++ replicate 3 (LTask 4) ++ [LMain; LMain].

(** An IPv6 gossip address with its port. *)
Definition V6 := peer "[::1]:8001" "V".

End Scenario.

(** * Vocabulary of the statements *)

(** ** States reached from a peer list *)

(** A task holds its slot from its launch until its deferred receive. *)
Definition holding (t : task) : nat :=
  match t_pc t with
  | TErrgroup _ | TDone _ => 0
  | _ => 1
  end.

(** The probe tasks in flight. *)
Definition in_flight (s : state) : nat :=
  sum_list_with holding (tasks s).

(** The slots taken are those of the tasks in flight, and the one the loop
    holds between its send and [eg.Go]. *)
Definition reserved (s : state) : nat :=
  match main_at s with MGo => 1 | _ => 0 end.

Record slots_inv (s : state) : Prop := {
  slots_count : sem s = in_flight s + reserved s;
  slots_bound : sem s ≤ concurrency;
  slots_go : main_at s = MGo → todo s ≠ []
}.

(** Past the loop nothing is left to launch and the bar is finished; once
    [checkLatency] has returned every task is over and nothing moves. *)
Definition launching (s : state) : Prop :=
  main_at s = MSend ∨ main_at s = MGo.

Record main_inv (s : state) : Prop := {
  main_todo : ¬ launching s → todo s = [];
  main_bar : bar_finished s = true ↔ ¬ launching s;
  main_ret : ∀ r, main_at s = MReturned r →
             Forall (λ t, is_done t = true) (tasks s) ∧ r = wait_returns s
}.

(** The error the task of a peer returns, and the measurement it appends,
    as the network decides them. *)
Definition task_error (node : ClusterNode) (o : PingOutcome) : option error :=
  match after_probe node o with TDefer r => r | _ => None end.

Definition measured (node : ClusterNode) (o : PingOutcome)
    : option ClusterLatency :=
  match after_probe node o with TAppendRead e => Some e | _ => None end.

(** The tasks are launched in the order of the list. *)
Definition launched_inv (nodes : list ClusterNode) (s : state) : Prop :=
  (t_node <$> tasks s) ++ todo s = nodes.

(** Where a task stands agrees with what its probe met. *)
Definition pc_ok (w : world) (i : nat) (t : task) : Prop :=
  match t_pc t with
  | TProbe => True
  | TAppendRead e | TAppendWrite e _ => measured (t_node t) (w i) = Some e
  | TIncrement => task_error (t_node t) (w i) = None
  | TDefer r | TErrgroup r | TDone r => r = task_error (t_node t) (w i)
  end.

Definition pcs_inv (w : world) (s : state) : Prop :=
  ∀ i t, tasks s !! i = Some t → pc_ok w i t.

(** The error the group keeps is the error of a task that is over, and it
    keeps one as soon as a failed task is over. *)
Record eg_inv (s : state) : Prop := {
  eg_from : ∀ e, eg_err s = Some e →
            ∃ i node, tasks s !! i = Some (Task node (TDone (Some e)));
  eg_kept : ∀ i node e, tasks s !! i = Some (Task node (TDone (Some e))) →
            is_Some (eg_err s)
}.

(** A task has signalled the bar once it is past line 149. *)
Definition signalled (t : task) : nat :=
  match t_pc t with
  | TDefer None | TErrgroup None | TDone None => 1
  | _ => 0
  end.

Definition bar_inv (s : state) : Prop :=
  bar_current s = sum_list_with signalled (tasks s).

(** A task is past its append once it stands at line 149 or later; what
    it appended is the measurement of its probe. *)
Definition past_append (pc : task_pc) : bool :=
  match pc with
  | TIncrement | TDefer _ | TErrgroup _ | TDone _ => true
  | _ => false
  end.

Definition appended (w : world) (i : nat) (t : task)
    : option ClusterLatency :=
  if past_append (t_pc t) then measured (t_node t) (w i) else None.

(** Only a task writes [result]: with no task launched it is empty. *)
Definition untouched_inv (s : state) : Prop :=
  tasks s = [] → result s = [].

(** Everything above, for the states reached from a peer list. *)
Record inv (w : world) (nodes : list ClusterNode) (s : state) : Prop := {
  inv_slots : slots_inv s;
  inv_main : main_inv s;
  inv_launched : launched_inv nodes s;
  inv_pcs : pcs_inv w s;
  inv_eg : eg_inv s;
  inv_bar : bar_inv s;
  inv_untouched : untouched_inv s
}.

(** The steps a task, the loop and the whole system have left at most. *)
Definition weight (t : task) : nat :=
  match t_pc t with
  | TProbe => 6
  | TAppendRead _ => 5
  | TAppendWrite _ _ => 4
  | TIncrement => 3
  | TDefer _ => 2
  | TErrgroup _ => 1
  | TDone _ => 0
  end.

Definition main_weight (m : main_pc) : nat :=
  match m with MSend => 3 | MGo => 2 | MWait => 1 | MReturned _ => 0 end.

Definition steps_left (s : state) : nat :=
  8 * length (todo s) + main_weight (main_at s)
  + sum_list_with weight (tasks s).

(** The peers, from position [k] on, whose task returns no error. *)
Fixpoint signals (w : world) (k : nat) (nodes : list ClusterNode) : nat :=
  match nodes with
  | [] => 0
  | n :: rest =>
      (if task_error n (w k) is Some _ then 0 else 1) + signals w (S k) rest
  end.

(** ** Appends that do not overlap *)

(** A task is appending between its read of [result] and its store. *)
Definition appending (t : task) : nat :=
  match t_pc t with TAppendWrite _ _ => 1 | _ => 0 end.

(** The step [l] is the read of [result] by a task at line 147. *)
Definition reads (s : state) (l : label) : bool :=
  match l with
  | LMain | LRace _ _ => false
  | LTask i =>
      match tasks s !! i with
      | Some (Task _ (TAppendRead _)) => true
      | _ => false
      end
  end.

(** A schedule keeps the appends apart when no task reads [result] while
    another stands between its read and its store, as a lock around line
    147 would enforce. *)
Fixpoint apart (w : world) (sched : list label) (s : state) : bool :=
  match sched with
  | [] => true
  | l :: sched' =>
      (negb (reads s l) || Nat.eqb (sum_list_with appending (tasks s)) 0)
      && match step w l s with
         | Some s' => apart w sched' s'
         | None => true
         end
  end.

(** What the tasks, from position [k] on, have appended so far. *)
Fixpoint appended_all (w : world) (k : nat) (ts : list task)
    : list ClusterLatency :=
  match ts with
  | [] => []
  | t :: ts' => option_list (appended w k t) ++ appended_all w (S k) ts'
  end.

(** The measurements of the peers, from position [k] on, in list order. *)
Fixpoint measurements (w : world) (k : nat) (nodes : list ClusterNode)
    : list ClusterLatency :=
  match nodes with
  | [] => []
  | n :: rest => option_list (measured n (w k)) ++ measurements w (S k) rest
  end.

(** While appends are kept apart, a task that is appending holds the
    current value of [result], and [result] holds every append so far. *)
Record apart_inv (w : world) (s : state) : Prop := {
  apart_one : sum_list_with appending (tasks s) ≤ 1;
  apart_seen : ∀ i node e seen,
    tasks s !! i = Some (Task node (TAppendWrite e seen)) → seen = result s;
  apart_all : result s ≡ₚ appended_all w 0 (tasks s)
}.

(** ** The ranking *)

(** The lines printed for the entries of [l], the first with index [i]. *)
Fixpoint lines_from (i : nat) (l : list ClusterLatency) : list Line :=
  match l with
  | [] => []
  | e :: l' => line_of i e :: lines_from (S i) l'
  end.

(** The number of lines the specification asks for: [min(top, |R|)], with
    [top] the unsigned value of the flag. *)
Definition requested_lines (top : Z) (R : list ClusterLatency) : nat :=
  Nat.min (Z.to_nat top) (length R).

(** The ranking the specification asks for: ascending, entries of equal
    latency in the order they were appended. Insertion from the right
    puts an entry before the later entries of equal latency. *)
Definition stable_ranking (R : list ClusterLatency) : list ClusterLatency :=
  insertion_sort less_Time R.

(** ** Gossip addresses *)

(** The colons of a string. *)
Fixpoint colons (s : string) : nat :=
  match s with
  | EmptyString => 0
  | String c r => (if Ascii.eqb c ":"%char then 1 else 0) + colons r
  end.

(** [strings.Join(parts, ":")] *)
Fixpoint join_colon (parts : list string) : string :=
  match parts with
  | [] => EmptyString
  | [p] => p
  | p :: rest => p +:+ ":" +:+ join_colon rest
  end.

(** * Proofs *)

(** ** Schedules *)

(** A property that every step keeps holds along every schedule. *)
Lemma exec_invariant w (P : state → Prop) :
  (∀ l s s', P s → step w l s = Some s' → P s') →
  ∀ sched s s', P s → exec w sched s = Some s' → P s'.
Proof.
  intros Hstep sched. induction sched as [|l sched IH]; intros s s' HP He.
  - cbn in He. by simplify_eq.
  - cbn in He. destruct (step w l s) as [s1|] eqn:Hs; [|done]. eauto.
Qed.

(** Case analysis on a step: the ten moves of the system. *)
Ltac split_match H :=
  repeat match type of H with
         | context [match ?x with _ => _ end] => destruct x eqn:?
         end.

Ltac step_cases H :=
  match type of H with
  | step _ ?l ?s = Some _ =>
      destruct s as [m td ts sm res bc bf ee];
      destruct l as [|i|i v];
      unfold step, main_step, task_step, race_step in H; cbn in H;
      [ destruct m as [| | |?]; destruct td as [|node rest];
        try discriminate H; split_match H;
        try discriminate H; simplify_eq
      | let Hi := fresh "Hi" in
        destruct (ts !! i) as [[node pc]|] eqn:Hi; [|discriminate H];
        destruct pc; split_match H; try discriminate H; simplify_eq
      | let Hi := fresh "Hi" in
        destruct (ts !! i) as [[node pc]|] eqn:Hi; [|discriminate H];
        destruct pc; try discriminate H; split_match H;
        try discriminate H; simplify_eq ]
  end; unfold goto in *; cbn in *.

(** ** Counting tasks *)

Lemma sum_snoc (f : task → nat) ts t :
  sum_list_with f (ts ++ [t]) = sum_list_with f ts + f t.
Proof. rewrite sum_list_with_app. cbn. lia. Qed.

Lemma sum_insert (f : task → nat) ts i t t' :
  ts !! i = Some t →
  sum_list_with f (<[i:=t']> ts) + f t = sum_list_with f ts + f t'.
Proof.
  revert i. induction ts as [|x ts IH]; intros i Hi.
  - by rewrite lookup_nil in Hi.
  - destruct i as [|i].
    + cbn in *. simplify_eq. lia.
    + change (<[S i:=t']> (x :: ts)) with (x :: <[i:=t']> ts).
      change ((x :: ts) !! S i) with (ts !! i) in Hi.
      specialize (IH i Hi). cbn [sum_list_with]. lia.
Qed.

Lemma sum_zero (f : task → nat) ts :
  Forall (λ t, f t = 0) ts → sum_list_with f ts = 0.
Proof. induction 1; cbn; lia. Qed.

Lemma sum_pos (f : task → nat) ts :
  0 < sum_list_with f ts → ∃ i t, ts !! i = Some t ∧ 0 < f t.
Proof.
  induction ts as [|x ts IH]; cbn; [lia|]. intros H.
  destruct (decide (0 < f x)) as [Hx|Hx].
  - by exists 0, x.
  - destruct IH as (i & t & Hi & Ht); [lia|]. by exists (S i), t.
Qed.

(** Brings the count of [f] after a task moved next to the count before. *)
Ltac count_moved f :=
  match goal with
  | Hi : ?ts !! ?i = Some ?t |- context [<[?i:=?t']> ?ts] =>
      let Ht := fresh "Hcount" in
      pose proof (sum_insert f ts i t t' Hi) as Ht; cbn in Ht
  | Hi : ?ts !! ?i = Some ?t, H : context [<[?i:=?t']> ?ts] |- _ =>
      let Ht := fresh "Hcount" in
      pose proof (sum_insert f ts i t t' Hi) as Ht; cbn in Ht
  end.

(** ** The ways out of a probe *)

Lemma after_probe_cases node o :
  (∃ e, after_probe node o = TDefer (Some e))
  ∨ (∃ e, after_probe node o = TAppendRead e)
  ∨ after_probe node o = TIncrement.
Proof.
  unfold after_probe. destruct (negb _); [eauto|].
  destruct o as [e|e|st]; [eauto..|]. destruct (Qeq_bool _ _); eauto.
Qed.

Ltac probe_cases :=
  match goal with
  | |- context [after_probe ?n ?o] =>
      let He := fresh "Hprobe" in
      destruct (after_probe_cases n o) as [[? He]|[[? He]|He]];
      rewrite He in *; cbn in *
  | H : context [after_probe ?n ?o] |- _ =>
      let He := fresh "Hprobe" in
      destruct (after_probe_cases n o) as [[? He]|[[? He]|He]];
      rewrite He in *; cbn in *
  end.

(** ** The semaphore *)

Lemma slots_inv_init nodes : slots_inv (init nodes).
Proof. split; cbn; [done|lia|done]. Qed.

Lemma slots_inv_step w l s s' :
  slots_inv s → step w l s = Some s' → slots_inv s'.
Proof.
  intros [Hc Hb Hg] H. unfold in_flight, reserved in *.
  step_cases H; split; unfold in_flight, reserved; cbn; try done; try lia;
    try (rewrite sum_snoc; cbn; lia);
    count_moved holding; try probe_cases; lia.
Qed.

(** ** The launching goroutine *)

Lemma main_inv_init nodes : main_inv (init nodes).
Proof.
  split; unfold launching; cbn; [tauto| |done].
  split; [done|]. intros []. by left.
Qed.

Lemma forallb_done ts :
  forallb is_done ts = true → Forall (λ t, is_done t = true) ts.
Proof.
  intros H. apply Forall_forall. intros t Ht.
  rewrite forallb_forall in H. apply H. by apply list_elem_of_In.
Qed.

Lemma done_lookup ts i node pc :
  Forall (λ t, is_done t = true) ts →
  ts !! i = Some (Task node pc) → ∃ r, pc = TDone r.
Proof.
  intros Hall Hi. pose proof (Forall_lookup_1 _ _ _ _ Hall Hi) as Hd.
  unfold is_done in Hd. cbn in Hd. destruct pc; try discriminate. eauto.
Qed.

Lemma returned_stuck w l s r : 
  main_inv s → main_at s = MReturned r → step w l s = None.
Proof.
  intros [_ _ Hr] Hm. destruct (Hr r Hm) as [Hall _].
  destruct l as [|i|i v]; cbn.
  - unfold main_step. by rewrite Hm.
  - unfold task_step. destruct (tasks s !! i) as [[node pc]|] eqn:Hi; [|done].
    destruct (done_lookup _ _ _ _ Hall Hi) as [r' ->]. done.
  - unfold race_step. destruct (tasks s !! i) as [[node pc]|] eqn:Hi; [|done].
    destruct (done_lookup _ _ _ _ Hall Hi) as [r' ->]. done.
Qed.

Lemma main_inv_step w l s s' :
  main_inv s → step w l s = Some s' → main_inv s'.
Proof.
  intros Hinv H.
  destruct (main_at s) as [| | |r] eqn:Hm;
    [| | |by rewrite (returned_stuck w l s r) in H].
  all: destruct Hinv as [Ht Hb Hr]; unfold launching in *.
  all: step_cases H; simplify_eq.
  all: split; unfold launching in *; cbn in *;
    try (intuition congruence).
  intros r ?; simplify_eq. split; [by apply forallb_done|done].
Qed.

(** ** Tasks and the peers they were launched for *)

Lemma launched_inv_init nodes : launched_inv nodes (init nodes).
Proof. done. Qed.

Lemma launched_inv_step w nodes l s s' :
  launched_inv nodes s → step w l s = Some s' → launched_inv nodes s'.
Proof.
  unfold launched_inv. intros Hn H.
  step_cases H; try done;
    try (rewrite list_fmap_insert; cbn;
         rewrite (list_insert_id (t_node <$> ts)); [done|];
         rewrite list_lookup_fmap, Hi; done).
  by rewrite fmap_app, <- app_assoc.
Qed.

Lemma pcs_inv_init w nodes : pcs_inv w (init nodes).
Proof. intros i t. cbn. by rewrite lookup_nil. Qed.

Lemma pc_ok_insert w ts i node pc :
  (∀ j t, ts !! j = Some t → pc_ok w j t) →
  i < length ts →
  pc_ok w i (Task node pc) →
  ∀ j t, <[i:=Task node pc]> ts !! j = Some t → pc_ok w j t.
Proof.
  intros Hall Hlt Hpc j t Hj. destruct (decide (i = j)) as [->|Hne].
  - rewrite list_lookup_insert_eq in Hj by done. by simplify_eq.
  - rewrite list_lookup_insert_ne in Hj by done. eauto.
Qed.

Lemma pcs_inv_step w l s s' :
  pcs_inv w s → step w l s = Some s' → pcs_inv w s'.
Proof.
  unfold pcs_inv. intros Hp H.
  step_cases H; try done.
  1: { intros j t Hj. apply lookup_app_Some in Hj as [Hj|[Hlen Hj]]; [eauto|].
       apply list_lookup_singleton_Some in Hj as [_ <-]. done. }
  all: apply pc_ok_insert; [done|by eapply lookup_lt_Some|].
  all: specialize (Hp i _ Hi); unfold pc_ok, task_error, measured in *;
    cbn in *; try probe_cases; try done; try (by destruct (after_probe _ _)).
Qed.

(** ** The error group and the progress bar *)

Lemma eg_inv_init nodes : eg_inv (init nodes).
Proof.
  split; cbn; [done|]. intros i node e Hi. by rewrite lookup_nil in Hi.
Qed.

Lemma lookup_moved (ts : list task) i j (t t' u : task) :
  ts !! i = Some t →
  <[i:=t']> ts !! j = Some u →
  (j = i ∧ u = t') ∨ (j ≠ i ∧ ts !! j = Some u).
Proof.
  intros Hi Hj. destruct (decide (i = j)) as [->|Hne].
  - rewrite list_lookup_insert_eq in Hj by (by eapply lookup_lt_Some).
    left. by simplify_eq.
  - rewrite list_lookup_insert_ne in Hj by done. right. eauto.
Qed.

Lemma lookup_kept (ts : list task) i j (t t' u : task) :
  ts !! i = Some t → ts !! j = Some u → u ≠ t →
  <[i:=t']> ts !! j = Some u.
Proof.
  intros Hi Hj Hne. rewrite list_lookup_insert_ne; [done|].
  intros ->. congruence.
Qed.

Lemma eg_inv_step w l s s' :
  eg_inv s → step w l s = Some s' → eg_inv s'.
Proof.
  intros [Hf Hk] H.
  step_cases H; try (split; done).
  1: { split; cbn.
       - intros e He. destruct (Hf e He) as (j & nd & Hj).
         exists j, nd. by apply lookup_app_l_Some.
       - intros j nd e Hj.
         apply lookup_app_Some in Hj as [Hj|[_ Hj]]; [eauto|].
         by apply list_lookup_singleton_Some in Hj as [_ ?]. }
  all: split; cbn.
  all: try (intros e' He; destruct (Hf e' He) as (j & nd & Hj);
            exists j, nd; by eapply lookup_kept).
  all: try (intros j nd e' Hj;
            destruct (lookup_moved _ _ _ _ _ _ Hi Hj) as [[_ ?]|[_ ?]];
            [try probe_cases; by simplify_eq|by eauto]).
  - intros e' He. destruct ee as [e0|]; cbn in He; simplify_eq.
    + destruct (Hf e' eq_refl) as (j & nd & Hj).
      exists j, nd. by eapply lookup_kept.
    + exists i, node. apply list_lookup_insert_eq. by eapply lookup_lt_Some.
  - intros j nd e' Hj.
    destruct (lookup_moved _ _ _ _ _ _ Hi Hj) as [[_ ?]|[_ Hj']].
    + simplify_eq. by destruct ee.
    + destruct (Hk _ _ _ Hj') as [e0 ->]. by eexists.
Qed.

Lemma bar_inv_init nodes : bar_inv (init nodes).
Proof. done. Qed.

Lemma bar_inv_step w l s s' :
  bar_inv s → step w l s = Some s' → bar_inv s'.
Proof.
  unfold bar_inv. intros Hb H.
  step_cases H; try done;
    try (rewrite sum_snoc; cbn; lia);
    count_moved signalled; try probe_cases; try lia.
  all: destruct r; cbn in *; lia.
Qed.

(** ** The slice before any task *)

Lemma untouched_inv_init nodes : untouched_inv (init nodes).
Proof. done. Qed.

Lemma untouched_inv_step w l s s' :
  untouched_inv s → step w l s = Some s' → untouched_inv s'.
Proof.
  unfold untouched_inv. intros Hu H.
  step_cases H; try done;
    try (by intros ?%app_nil_r_inv || by intros [_ ?]%app_eq_nil);
    intros Hnil; apply (f_equal length) in Hnil;
    rewrite length_insert in Hnil; apply lookup_lt_Some in Hi;
    cbn in Hnil; lia.
Qed.

(** ** Reachable states *)

Lemma inv_init w nodes : inv w nodes (init nodes).
Proof.
  split; auto using slots_inv_init, main_inv_init, launched_inv_init,
    pcs_inv_init, eg_inv_init, bar_inv_init, untouched_inv_init.
Qed.

Lemma inv_step w nodes l s s' :
  inv w nodes s → step w l s = Some s' → inv w nodes s'.
Proof.
  intros [] H.
  split; eauto using slots_inv_step, main_inv_step, launched_inv_step,
    pcs_inv_step, eg_inv_step, bar_inv_step, untouched_inv_step.
Qed.

Lemma inv_exec w nodes sched s :
  exec w sched (init nodes) = Some s → inv w nodes s.
Proof.
  apply (exec_invariant w (inv w nodes)); [|apply inv_init].
  intros l s1 s2. apply inv_step.
Qed.

(** ** Termination *)

Lemma step_decreases w l s s' :
  step w l s = Some s' → steps_left s' < steps_left s.
Proof.
  intros H. unfold steps_left.
  step_cases H; try lia;
    try (rewrite sum_snoc; cbn; lia);
    count_moved weight; try probe_cases; lia.
Qed.

(** Every schedule is finite: it is no longer than the steps left. *)
Lemma exec_length w sched s s' :
  exec w sched s = Some s' → length sched + steps_left s' ≤ steps_left s.
Proof.
  revert s. induction sched as [|l sched IH]; intros s He; cbn in He.
  - simplify_eq. cbn. lia.
  - destruct (step w l s) as [s1|] eqn:Hs; [|done].
    apply step_decreases in Hs. apply IH in He. cbn [length]. lia.
Qed.

Lemma task_can_step w s i t :
  tasks s !! i = Some t → is_done t = false →
  (holding t = 1 → 0 < sem s) →
  ∃ s', step w (LTask i) s = Some s'.
Proof.
  intros Hi Hd Hs. cbn. unfold task_step. rewrite Hi.
  destruct t as [node pc]. unfold is_done, holding in *. cbn in *.
  destruct pc; try discriminate Hd; eauto.
  destruct (sem s); [lia|eauto].
Qed.

Lemma holding_le_in_flight s i t :
  tasks s !! i = Some t → holding t ≤ in_flight s.
Proof.
  intros Hi. apply sum_list_with_in. by eapply list_elem_of_lookup_2.
Qed.

Lemma not_all_done ts :
  forallb is_done ts = false → ∃ i t, ts !! i = Some t ∧ is_done t = false.
Proof.
  induction ts as [|t ts IH]; cbn; [done|].
  destruct (is_done t) eqn:Hd; cbn.
  - intros H. destruct (IH H) as (i & u & Hi & Hu). by exists (S i), u.
  - intros _. by exists 0, t.
Qed.

(** A state that has not returned is never stuck. *)
Lemma progress w nodes s :
  inv w nodes s → (∀ r, main_at s ≠ MReturned r) →
  ∃ l s', step w l s = Some s'.
Proof.
  intros [[Hc Hb Hg] _ _ _ _ _ _] Hnr.
  assert (Htask : ∀ i t, tasks s !! i = Some t → is_done t = false →
                         ∃ l s', step w l s = Some s').
  { intros i t Hi Hd. exists (LTask i).
    apply (task_can_step w s i t Hi Hd).
    pose proof (holding_le_in_flight s i t Hi). lia. }
  destruct (main_at s) as [| | |r] eqn:Hm; [| | |by destruct (Hnr r)].
  - destruct (todo s) as [|n rest] eqn:Ht.
    + exists LMain. cbn. unfold main_step. rewrite Hm, Ht. eauto.
    + destruct (decide (sem s < concurrency)) as [Hlt|Hge].
      * exists LMain. cbn. unfold main_step. rewrite Hm, Ht.
        rewrite decide_True by done. eauto.
      * destruct (sum_pos holding (tasks s)) as (i & t & Hi & Hh).
        { unfold reserved, in_flight, concurrency in *. rewrite Hm in Hc. lia. }
        apply (Htask i t Hi). unfold holding, is_done in *.
        destruct (t_pc t); (done || lia).
  - exists LMain. cbn. unfold main_step. rewrite Hm.
    destruct (todo s) as [|n rest] eqn:Ht; [by destruct Hg|eauto].
  - destruct (forallb is_done (tasks s)) eqn:Hall.
    + exists LMain. cbn. unfold main_step. rewrite Hm, Hall.
      destruct (todo s); eauto.
    + destruct (not_all_done _ Hall) as (i & t & Hi & Hd). eauto.
Qed.

(** From every reachable state some schedule runs to the return. *)
Lemma runs_to_return w nodes n s :
  inv w nodes s → steps_left s ≤ n →
  ∃ sched s' r, exec w sched s = Some s' ∧ main_at s' = MReturned r.
Proof.
  revert s. induction n as [|n IH]; intros s Hinv Hn.
  - destruct (main_at s) as [| | |r] eqn:Hm;
      try (unfold steps_left in Hn; rewrite Hm in Hn; cbn in Hn; lia).
    by exists [], s, r.
  - destruct (main_at s) as [| | |r] eqn:Hm; [| | |by exists [], s, r].
    all: destruct (progress w nodes s Hinv) as (l & s1 & Hs);
      [intros r; congruence|].
    all: pose proof (step_decreases _ _ _ _ Hs).
    all: destruct (IH s1) as (sched & s' & r & He & Hr);
      [by eapply inv_step|lia|].
    all: exists (l :: sched), s', r; cbn; by rewrite Hs.
Qed.

(** ** What the run returns *)

Lemma launched_lookup nodes s i n :
  launched_inv nodes s → todo s = [] → nodes !! i = Some n →
  ∃ pc, tasks s !! i = Some (Task n pc).
Proof.
  unfold launched_inv. intros Hl Ht Hi. rewrite Ht, app_nil_r in Hl.
  subst nodes. rewrite list_lookup_fmap in Hi.
  destruct (tasks s !! i) as [[n' pc]|]; cbn in Hi; simplify_eq. eauto.
Qed.

Lemma launched_node nodes s i t :
  launched_inv nodes s → tasks s !! i = Some t → nodes !! i = Some (t_node t).
Proof.
  unfold launched_inv. intros <- Hi.
  apply lookup_app_l_Some. by rewrite list_lookup_fmap, Hi.
Qed.

(** Past the loop every peer has its task. *)
Lemma all_launched w nodes s :
  inv w nodes s → ¬ launching s →
  todo s = [] ∧ length (tasks s) = length nodes.
Proof.
  intros [_ [Ht _ _] Hl _ _ _ _] Hn. specialize (Ht Hn). split; [done|].
  unfold launched_inv in Hl. rewrite Ht, app_nil_r in Hl.
  by rewrite <- Hl, length_fmap.
Qed.

Lemma returned_not_launching s r : main_at s = MReturned r → ¬ launching s.
Proof. unfold launching. intros ->. by intros []. Qed.

(** At the return every peer has a task that is over, with the error its
    probe met. *)
Lemma returned_tasks w nodes s r i n :
  inv w nodes s → main_at s = MReturned r → nodes !! i = Some n →
  tasks s !! i = Some (Task n (TDone (task_error n (w i)))).
Proof.
  intros [_ [Ht _ Hr] Hl Hp _ _ _] Hm Hi.
  destruct (Hr r Hm) as [Hall _].
  destruct (launched_lookup nodes s i n Hl) as [pc Hpc]; [|done|].
  { by eapply Ht, returned_not_launching. }
  destruct (done_lookup _ _ _ _ Hall Hpc) as [r' ->].
  specialize (Hp i _ Hpc). unfold pc_ok in Hp. cbn in Hp. by subst r'.
Qed.

(** [checkLatency] returns an error exactly when some task did, and then
    the error of one of them. *)
Lemma returned_cases w nodes s r :
  inv w nodes s → main_at s = MReturned r →
  (∃ e i n, r = (None, Some e) ∧ nodes !! i = Some n
            ∧ task_error n (w i) = Some e)
  ∨ (r = (Some (result s), None)
     ∧ ∀ i n, nodes !! i = Some n → task_error n (w i) = None).
Proof.
  intros Hinv Hm. pose proof Hinv as [_ [_ _ Hr] Hl Hp [Hf Hk] _ _].
  destruct (Hr r Hm) as [_ ->]. unfold wait_returns.
  destruct (eg_err s) as [e|] eqn:He.
  - left. destruct (Hf e eq_refl) as (i & n & Hi).
    exists e, i, n. split; [done|].
    pose proof (launched_node _ _ _ _ Hl Hi) as Hn. split; [done|].
    specialize (Hp i _ Hi). unfold pc_ok in Hp. by cbn in Hp.
  - right. split; [done|]. intros i n Hi.
    pose proof (returned_tasks w nodes s _ i n Hinv Hm Hi) as Ht.
    destruct (task_error n (w i)) as [e|] eqn:Hte; [|done].
    destruct (Hk _ _ _ Ht) as [e' He']. congruence.
Qed.

Lemma checkLatency_Some w sched nodes r :
  checkLatency w sched {| Result := nodes |} = Some r ↔
  ∃ s, exec w sched (init nodes) = Some s ∧ main_at s = MReturned r.
Proof.
  unfold checkLatency. cbn. split.
  - destruct (exec w sched (init nodes)) as [s|]; [|done].
    destruct (main_at s) eqn:Hm; try done. intros; simplify_eq. eauto.
  - intros (s & -> & ->). done.
Qed.

(** [checkLatency] returns under some schedule, whatever the peers and
    the network. *)
Lemma checkLatency_returns w nodes :
  ∃ sched r, checkLatency w sched {| Result := nodes |} = Some r.
Proof.
  destruct (runs_to_return w nodes _ (init nodes) (inv_init w nodes)
              (le_n _)) as (sched & s & r & He & Hr).
  exists sched, r. apply checkLatency_Some. eauto.
Qed.

(** ** The concurrency cap *)

(** C3: in every state [checkLatency] can reach, for every peer list and
    every network, at most [concurrency] = 20 probe tasks are in flight.
    A task in flight occupies a slot of the semaphore, taken before the
    task is launched; the task gives the slot back on every path, failed
    or not, so that no slot is taken once [checkLatency] has returned. *)
Theorem in_flight_bounded w nodes sched s :
  exec w sched (init nodes) = Some s →
  in_flight s ≤ 20
  ∧ sem s = in_flight s + reserved s
  ∧ (∀ r, main_at s = MReturned r → sem s = 0 ∧ in_flight s = 0).
Proof.
  intros He. pose proof (inv_exec _ _ _ _ He) as [[Hc Hb _] [_ _ Hr] _ _ _ _ _].
  unfold concurrency in Hb. split; [lia|]. split; [done|].
  intros r Hm. destruct (Hr r Hm) as [Hall _].
  assert (in_flight s = 0) as Hz.
  { apply sum_zero. eapply Forall_impl; [exact Hall|].
    intros [n pc]. unfold is_done, holding. cbn. by destruct pc. }
  unfold reserved in Hc. rewrite Hm in Hc. lia.
Qed.

(** ** Measurements *)

(** An entry is appended only for a well-formed address whose probe ran
    to its end without losing a packet. *)
Lemma measured_spec node o e :
  measured node o = Some e →
  ∃ host port st,
    split_colon (Gossip node) = [host; port]
    ∧ o = RunReturns st
    ∧ (PacketLoss st == 0)%Q
    ∧ e = {| Time := AvgRtt st; IP := host; NodeRef := node |}.
Proof.
  unfold measured, after_probe. intros H.
  destruct (split_colon (Gossip node)) as [|host [|port [|]]] eqn:Hs;
    cbn in H; try discriminate H.
  destruct o as [?|?|st]; try discriminate H.
  destruct (Qeq_bool (PacketLoss st) 0) eqn:Hq; [|discriminate H].
  apply Qeq_bool_iff in Hq. simplify_eq. by exists host, port, st.
Qed.

Lemma measured_no_error node o e :
  measured node o = Some e → task_error node o = None.
Proof. unfold measured, task_error. by destruct (after_probe node o). Qed.

(** ** The command *)

(** Once the peer list is fetched, the command ends as [checkLatency] and
    [printResult] decide. *)
Lemma main_after_fetch `{NetURL} `{NetHTTP} sort w urlKey url nodes top sched :
  buildURL urlKey = Ok url →
  getClusterNodes url = Ok {| Result := nodes |} →
  main sort w urlKey top sched =
    match exec w sched (init nodes) with
    | None => None
    | Some s =>
        match main_at s with
        | MReturned (_, Some e) => Some (Run (Fatal e) (Some s))
        | MReturned (latency, None) =>
            match printResult sort (default [] latency) top with
            | Returned out => Some (Run (Exit0 out) (Some s))
            | Panicked out => Some (Run (Panic out) (Some s))
            end
        | _ => None
        end
    end.
Proof. intros Hb Hg. unfold main. by rewrite Hb, Hg. Qed.

Lemma main_checkLatency `{NetURL} `{NetHTTP} sort w urlKey url nodes top
    sched run :
  buildURL urlKey = Ok url →
  getClusterNodes url = Ok {| Result := nodes |} →
  main sort w urlKey top sched = Some run →
  ∃ r, checkLatency w sched {| Result := nodes |} = Some r
       ∧ match r with
         | (_, Some e) => ended run = Fatal e
         | (latency, None) =>
             match printResult sort (default [] latency) top with
             | Returned out => ended run = Exit0 out
             | Panicked out => ended run = Panic out
             end
         end.
Proof.
  intros Hb Hg. rewrite (main_after_fetch _ _ _ _ _ _ _ Hb Hg).
  unfold checkLatency. cbn.
  destruct (exec w sched (init nodes)) as [s|]; [|done].
  destruct (main_at s) as [| | |[latency [e|]]]; try done.
  - intros; simplify_eq. by eexists.
  - destruct (printResult _ _ _) eqn:Hpr; intros; simplify_eq;
      eexists; (split; [done|]); cbn; by rewrite Hpr.
Qed.

(** ** Failures of the fetch *)

(** C8: when the endpoint cannot be built from the flag, cannot be
    reached, cannot be read, or answers with something that is not the
    JSON of a peer list, the command ends in [log.Fatal] with that one
    error: exit status 1, nothing on the standard output, and
    [checkLatency] never called, hence no probe started. *)
Theorem fetch_failure_is_fatal `{NetURL} `{NetHTTP} sort w urlKey top sched e :
  buildURL urlKey = Err e
  ∨ (∃ url, buildURL urlKey = Ok url
      ∧ (http_Post url "application/json" rpc_request = Err e
         ∨ (∃ resp, http_Post url "application/json" rpc_request = Ok resp
              ∧ (ioutil_ReadAll resp = Err e
                 ∨ ∃ body, ioutil_ReadAll resp = Ok body
                           ∧ json_Unmarshal body = Err e)))) →
  ∃ run, main sort w urlKey top sched = Some run
         ∧ fanout run = None
         ∧ stdout (ended run) = []
         ∧ logged (ended run) = [e]
         ∧ exit_code (ended run) = 1%Z.
Proof.
  intros Hfail. exists (Run (Fatal e) None). split; [|done].
  unfold main, getClusterNodes.
  destruct Hfail as [->|(url & -> & [->|(resp & -> & [->|(body & -> & ->)])])];
    done.
Qed.

(** ** An empty peer list *)

Lemma printResult_nil sort top : printResult sort [] top = Returned [].
Proof. done. Qed.

(** C10: for an empty peer list [checkLatency] returns, under every
    schedule that runs it to its end (and one exists), the empty non-nil
    slice and no error; [printResult] then prints nothing for any [top];
    the command ends with status 0. *)
Theorem empty_peer_list `{NetURL} `{NetHTTP} sort w urlKey url top :
  (∃ sched, checkLatency w sched {| Result := [] |} = Some (Some [], None))
  ∧ (∀ sched r, checkLatency w sched {| Result := [] |} = Some r →
                r = (Some [], None))
  ∧ printResult sort [] top = Returned []
  ∧ (buildURL urlKey = Ok url →
     getClusterNodes url = Ok {| Result := [] |} →
     (∃ sched run, main sort w urlKey top sched = Some run)
     ∧ ∀ sched run, main sort w urlKey top sched = Some run →
         ended run = Exit0 [] ∧ stdout (ended run) = []
         ∧ exit_code (ended run) = 0%Z).
Proof.
  assert (Hall : ∀ sched r, checkLatency w sched {| Result := [] |} = Some r →
                            r = (Some [], None)).
  { intros sched r (s & He & Hm)%checkLatency_Some.
    pose proof (inv_exec _ _ _ _ He) as Hinv.
    destruct (returned_cases _ _ _ _ Hinv Hm)
      as [(e & i & n & _ & Hi & _)|[-> _]]; [by rewrite lookup_nil in Hi|].
    destruct Hinv as [_ _ Hl _ _ _ Hu]. rewrite Hu; [done|].
    unfold launched_inv in Hl. apply app_eq_nil in Hl as [Hl _].
    by apply fmap_nil_inv in Hl. }
  split; [by exists [LMain; LMain]|]. split; [done|]. split; [done|].
  intros Hb Hg. split.
  - exists [LMain; LMain]. rewrite (main_after_fetch _ _ _ _ _ _ _ Hb Hg).
    cbn. eauto.
  - intros sched run Hrun.
    destruct (main_checkLatency _ _ _ _ _ _ _ _ Hb Hg Hrun) as (r & Hr & Hend).
    rewrite (Hall _ _ Hr) in Hend. cbn in Hend.
    rewrite printResult_nil in Hend. by rewrite Hend.
Qed.

(** ** A malformed gossip address *)

Lemma malformed_error node o :
  length (split_colon (Gossip node)) ≠ 2 →
  task_error node o = Some invalid_gossip.
Proof.
  intros Hlen. unfold task_error, after_probe.
  destruct (Nat.eqb_spec (length (split_colon (Gossip node))) 2); done.
Qed.

Lemma returned_in_flight w nodes s r :
  inv w nodes s → main_at s = MReturned r → in_flight s = 0.
Proof.
  intros [_ [_ _ Hr] _ _ _ _ _] Hm. destruct (Hr r Hm) as [Hall _].
  apply sum_zero. eapply Forall_impl; [exact Hall|].
  intros [n pc]. unfold is_done, holding. cbn. by destruct pc.
Qed.

(** C1, as the code has it: when exactly one peer of the list has a
    malformed gossip address and the probes of all the others succeed,
    [checkLatency] returns, under every schedule that runs it to its end
    (and one exists), a nil slice and the error "invalid gossip ip" of that
    peer's task. It returns only once every task has finished: at the
    return each peer of the list has its task, every task is over, and no
    probe is in flight. [printResult] is not called, and the command ends
    in [log.Fatal] with that error: exit status 1 and nothing on the
    standard output. *)
Theorem malformed_peer_is_fatal w nodes k bad :
  nodes !! k = Some bad →
  length (split_colon (Gossip bad)) ≠ 2 →
  (∀ i n, i ≠ k → nodes !! i = Some n → is_Some (measured n (w i))) →
  (∃ sched, checkLatency w sched {| Result := nodes |}
            = Some (None, Some invalid_gossip))
  ∧ (∀ sched r, checkLatency w sched {| Result := nodes |} = Some r →
                r = (None, Some invalid_gossip))
  ∧ (∀ sched s r, exec w sched (init nodes) = Some s →
       main_at s = MReturned r →
       length (tasks s) = length nodes
       ∧ (∀ i n, nodes !! i = Some n →
            ∃ pc, tasks s !! i = Some (Task n pc) ∧ is_done (Task n pc) = true)
       ∧ tasks s !! k = Some (Task bad (TDone (Some invalid_gossip)))
       ∧ in_flight s = 0)
  ∧ (∀ (net_url : NetURL) (net_http : NetHTTP) sort urlKey url top sched run,
       buildURL urlKey = Ok url →
       getClusterNodes url = Ok {| Result := nodes |} →
       main sort w urlKey top sched = Some run →
       ended run = Fatal invalid_gossip ∧ stdout (ended run) = []
       ∧ exit_code (ended run) = 1%Z).
Proof.
  intros Hk Hbad Hothers.
  assert (Hall : ∀ sched r,
             checkLatency w sched {| Result := nodes |} = Some r →
             r = (None, Some invalid_gossip)).
  { intros sched r (s & He & Hm)%checkLatency_Some.
    pose proof (inv_exec _ _ _ _ He) as Hinv.
    destruct (returned_cases _ _ _ _ Hinv Hm)
      as [(e & i & n & -> & Hi & Herr)|[_ Hnone]].
    - destruct (decide (i = k)) as [->|Hne].
      + simplify_eq. rewrite (malformed_error bad (w k) Hbad) in Herr.
        by simplify_eq.
      + destruct (Hothers i n Hne Hi) as [e' He'].
        rewrite (measured_no_error _ _ _ He') in Herr. done.
    - specialize (Hnone k bad Hk).
      by rewrite (malformed_error bad (w k) Hbad) in Hnone. }
  split; [|split; [done|split]].
  - destruct (checkLatency_returns w nodes) as (sched & r & Hr).
    exists sched. by rewrite <- (Hall _ _ Hr).
  - intros sched s r He Hm. pose proof (inv_exec _ _ _ _ He) as Hinv.
    split; [|split; [|split]].
    + by eapply all_launched, returned_not_launching.
    + intros i n Hi. eexists. split; [by eapply returned_tasks|done].
    + rewrite <- (malformed_error bad (w k) Hbad). by eapply returned_tasks.
    + by eapply returned_in_flight.
  - intros net_url net_http sort urlKey url top sched run Hb Hg Hrun.
    destruct (main_checkLatency _ _ _ _ _ _ _ _ Hb Hg Hrun) as (r & Hr & Hend).
    rewrite (Hall _ _ Hr) in Hend. by rewrite Hend.
Qed.

(** ** Signals to the progress bar *)

Lemma signalled_done w k nodes (ts : list task) :
  length ts = length nodes →
  (∀ i n, nodes !! i = Some n →
          ts !! i = Some (Task n (TDone (task_error n (w (k + i)))))) →
  sum_list_with signalled ts = signals w k nodes.
Proof.
  revert k ts. induction nodes as [|n nodes IH]; intros k ts Hlen Hts.
  - by destruct ts.
  - destruct ts as [|t ts]; [done|]. cbn [sum_list_with signals].
    pose proof (Hts 0 n eq_refl) as H0. cbn in H0. simplify_eq.
    rewrite Nat.add_0_r. rewrite (IH (S k) ts).
    + unfold signalled. cbn. by destruct (task_error n (w k)).
    + cbn in Hlen. lia.
    + intros i n' Hi. specialize (Hts (S i) n' Hi). cbn in Hts.
      by rewrite Nat.add_succ_r in Hts.
Qed.

(** C7, as the code has it: the bar counts one signal for every task that
    is past [bar.Increment], which a task reaches exactly when it returns
    no error (a task that returns an error returns before line 149); so
    when [checkLatency] returns the bar has received one signal for each
    peer whose task returned no error, and none for the others. The bar is
    finished after the last task has been launched. *)
Theorem bar_signals w nodes sched s :
  exec w sched (init nodes) = Some s →
  bar_current s = sum_list_with signalled (tasks s)
  ∧ (∀ r, main_at s = MReturned r → bar_current s = signals w 0 nodes)
  ∧ (bar_finished s = true →
     todo s = [] ∧ length (tasks s) = length nodes).
Proof.
  intros He. pose proof (inv_exec _ _ _ _ He) as Hinv.
  pose proof Hinv as [_ [_ Hb _] _ _ _ Hbar _].
  split; [done|]. split.
  - intros r Hm. rewrite Hbar. apply signalled_done.
    + by eapply all_launched, returned_not_launching.
    + intros i n Hi. by eapply returned_tasks.
  - intros Hfin. eapply all_launched; [done|]. by apply Hb.
Qed.

(** ** Appends that do not overlap *)

Lemma appended_all_app w k ts us :
  appended_all w k (ts ++ us)
  = appended_all w k ts ++ appended_all w (k + length ts) us.
Proof.
  revert k. induction ts as [|t ts IH]; intros k; cbn.
  - by rewrite Nat.add_0_r.
  - rewrite IH, <- app_assoc. by rewrite Nat.add_succ_r.
Qed.

Lemma appended_all_same w k (ts : list task) i t t' :
  ts !! i = Some t →
  appended w (k + i) t' = appended w (k + i) t →
  appended_all w k (<[i:=t']> ts) = appended_all w k ts.
Proof.
  revert k i. induction ts as [|x ts IH]; intros k i Hi Ha.
  - by rewrite lookup_nil in Hi.
  - destruct i as [|i]; cbn in *.
    + simplify_eq. rewrite Nat.add_0_r in Ha. by rewrite Ha.
    + f_equal. apply IH; [done|]. by rewrite Nat.add_succ_r in Ha.
Qed.

Lemma appended_all_new w k (ts : list task) i t t' e :
  ts !! i = Some t →
  appended w (k + i) t = None →
  appended w (k + i) t' = Some e →
  appended_all w k (<[i:=t']> ts) ≡ₚ appended_all w k ts ++ [e].
Proof.
  revert k i. induction ts as [|x ts IH]; intros k i Hi Hn Ha.
  - by rewrite lookup_nil in Hi.
  - destruct i as [|i]; cbn in *.
    + simplify_eq. rewrite Nat.add_0_r in Hn, Ha. rewrite Hn, Ha. cbn.
      by rewrite Permutation_cons_append.
    + rewrite Nat.add_succ_r in Hn, Ha.
      rewrite (IH (S k) i Hi Hn Ha). by rewrite app_assoc.
Qed.

Lemma appended_all_done w k nodes (ts : list task) :
  length ts = length nodes →
  (∀ i n, nodes !! i = Some n →
          ts !! i = Some (Task n (TDone (task_error n (w (k + i)))))) →
  appended_all w k ts = measurements w k nodes.
Proof.
  revert k ts. induction nodes as [|n nodes IH]; intros k ts Hlen Hts.
  - by destruct ts.
  - destruct ts as [|t ts]; [done|]. cbn [appended_all measurements].
    pose proof (Hts 0 n eq_refl) as H0. cbn in H0. simplify_eq.
    rewrite Nat.add_0_r. rewrite (IH (S k) ts); [done| |].
    + cbn in Hlen. lia.
    + intros i n' Hi. specialize (Hts (S i) n' Hi). cbn in Hts.
      by rewrite Nat.add_succ_r in Hts.
Qed.

Lemma none_appending (ts : list task) i node e seen :
  sum_list_with appending ts = 0 →
  ts !! i = Some (Task node (TAppendWrite e seen)) → False.
Proof.
  intros Hz Hi.
  pose proof (sum_list_with_in _ appending ts (list_elem_of_lookup_2 _ _ _ Hi)).
  unfold appending in *. cbn in *. lia.
Qed.

Lemma apart_inv_init w nodes : apart_inv w (init nodes).
Proof.
  split; cbn; [lia| |done]. intros i node e seen Hi.
  by rewrite lookup_nil in Hi.
Qed.

Lemma apart_inv_step w l s s' :
  pcs_inv w s → apart_inv w s →
  reads s l = false ∨ sum_list_with appending (tasks s) = 0 →
  step w l s = Some s' → apart_inv w s'.
Proof.
  intros Hp [Hone Hseen Hall] Hex H.
  step_cases H; try (split; done).
  1: { split; cbn.
       - rewrite sum_snoc. cbn. lia.
       - intros j nd e seen Hj.
         apply lookup_app_Some in Hj as [Hj|[_ Hj]]; [eauto|].
         by apply list_lookup_singleton_Some in Hj as [_ ?].
       - rewrite appended_all_app. cbn. by rewrite app_nil_r. }
  all: specialize (Hp i _ Hi); unfold pc_ok in Hp; cbn in Hp.
  all: count_moved appending.
  - (* the probe ends *)
    split; cbn.
    + probe_cases; lia.
    + intros j nd e seen Hj.
      destruct (lookup_moved _ _ _ _ _ _ Hi Hj) as [[_ ?]|[_ Hj']];
        [probe_cases; simplify_eq|eauto].
    + rewrite (appended_all_same w 0 ts i _ _ Hi); [done|].
      unfold appended, measured. cbn. by probe_cases.
  - (* the read *)
    rewrite Hi in Hex. destruct Hex as [?|Hz]; [done|].
    split; cbn.
    + lia.
    + intros j nd e' seen Hj.
      destruct (lookup_moved _ _ _ _ _ _ Hi Hj) as [[_ ?]|[_ Hj']];
        [by simplify_eq|]. by destruct (none_appending _ _ _ _ _ Hz Hj').
    + by rewrite (appended_all_same w 0 ts i _ _ Hi).
  - (* the store *)
    rewrite (Hseen _ _ _ _ Hi) in *. split; cbn.
    + lia.
    + intros j nd e' seen' Hj. exfalso.
      eapply (none_appending _ j); [|exact Hj]. lia.
    + rewrite (appended_all_new w 0 ts i _ _ e Hi); [by rewrite Hall|done|].
      unfold appended. by cbn.
  - (* bar.Increment *)
    split; cbn; [lia| |].
    + intros j nd e seen Hj.
      destruct (lookup_moved _ _ _ _ _ _ Hi Hj) as [[_ ?]|[_ Hj']];
        [by simplify_eq|eauto].
    + by rewrite (appended_all_same w 0 ts i _ _ Hi).
  - (* the deferred receive *)
    split; cbn; [lia| |].
    + intros j nd e seen Hj.
      destruct (lookup_moved _ _ _ _ _ _ Hi Hj) as [[_ ?]|[_ Hj']];
        [by simplify_eq|eauto].
    + by rewrite (appended_all_same w 0 ts i _ _ Hi).
  - (* the error group *)
    split; cbn; [lia| |].
    + intros j nd e seen Hj.
      destruct (lookup_moved _ _ _ _ _ _ Hi Hj) as [[_ ?]|[_ Hj']];
        [by simplify_eq|eauto].
    + by rewrite (appended_all_same w 0 ts i _ _ Hi).
  - (* a raced store: excluded *)
    by destruct (Hseen _ _ _ _ Hi).
Qed.

Lemma apart_exec w sched s s' :
  pcs_inv w s → apart_inv w s →
  apart w sched s = true → exec w sched s = Some s' → apart_inv w s'.
Proof.
  revert s. induction sched as [|l sched IH]; intros s Hp Ha Hap He;
    cbn in *; [by simplify_eq|].
  destruct (step w l s) as [s1|] eqn:Hs; [|done].
  apply andb_prop in Hap as [Hex Hap].
  apply (IH s1); eauto using pcs_inv_step.
  eapply apart_inv_step; eauto.
  apply orb_prop in Hex as [Hex|Hex].
  - left. by apply negb_true_iff.
  - right. by apply Nat.eqb_eq.
Qed.

Lemma measurements_elem w k nodes e :
  e ∈ measurements w k nodes →
  ∃ i n, nodes !! i = Some n ∧ measured n (w (k + i)) = Some e.
Proof.
  revert k. induction nodes as [|n nodes IH]; intros k He; cbn in He.
  - by apply elem_of_nil in He.
  - apply elem_of_app in He as [He|He].
    + destruct (measured n (w k)) as [e'|] eqn:Hm; cbn in He;
        [|by apply elem_of_nil in He].
      apply list_elem_of_singleton in He as ->.
      exists 0, n. by rewrite Nat.add_0_r.
    + destruct (IH (S k) He) as (i & n' & Hi & Hm).
      exists (S i), n'. by rewrite Nat.add_succ_r.
Qed.

(** The peers measured are peers of the list, in list order. *)
Lemma measurements_peers w k nodes :
  (NodeRef <$> measurements w k nodes) `sublist_of` nodes.
Proof.
  revert k. induction nodes as [|n nodes IH]; intros k; cbn; [done|].
  rewrite fmap_app. destruct (measured n (w k)) as [e|] eqn:Hm; cbn.
  - destruct (measured_spec _ _ _ Hm) as (? & ? & ? & _ & _ & _ & ->). cbn.
    by apply sublist_skip.
  - by apply sublist_cons.
Qed.

Lemma measurements_length_le w k nodes :
  length (measurements w k nodes) ≤ length nodes.
Proof.
  rewrite <- (length_fmap NodeRef). apply sublist_length, measurements_peers.
Qed.

Lemma apart_result w nodes sched s r :
  exec w sched (init nodes) = Some s →
  apart w sched (init nodes) = true →
  main_at s = MReturned r →
  result s ≡ₚ measurements w 0 nodes.
Proof.
  intros He Hap Hm. pose proof (inv_exec _ _ _ _ He) as Hinv.
  pose proof (apart_exec w sched _ _ (pcs_inv_init w nodes)
                (apart_inv_init w nodes) Hap He) as [_ _ Hperm].
  rewrite Hperm. rewrite (appended_all_done w 0 nodes); [done| |].
  - by eapply all_launched, returned_not_launching.
  - intros i n Hi. by eapply returned_tasks.
Qed.

Lemma measurements_length w k nodes :
  (∀ i n, nodes !! i = Some n → is_Some (measured n (w (k + i)))) →
  length (measurements w k nodes) = length nodes.
Proof.
  revert k. induction nodes as [|n nodes IH]; intros k Hall; [done|].
  cbn [measurements]. destruct (Hall 0 n eq_refl) as [e He].
  rewrite Nat.add_0_r in He. rewrite He. cbn. f_equal. apply IH.
  intros i n' Hi. specialize (Hall (S i) n' Hi).
  by rewrite Nat.add_succ_r in Hall.
Qed.

(** C6, as the code has it: when the appends of the tasks do not
    overlap, every entry of the result set [checkLatency] returns is the
    measurement of a peer of the list whose probe lost no packet, and a
    peer list without duplicates gives a result set without duplicate
    peers. (Nothing removes duplicates: a peer listed twice is probed
    twice. What the set holds after appends that overlap is left open.) *)
Theorem result_zero_loss_distinct w nodes sched res err :
  checkLatency w sched {| Result := nodes |} = Some (Some res, err) →
  apart w sched (init nodes) = true →
  (∀ e, e ∈ res →
     ∃ i st, nodes !! i = Some (NodeRef e)
             ∧ w i = RunReturns st
             ∧ (PacketLoss st == 0)%Q
             ∧ Time e = AvgRtt st)
  ∧ (NoDup nodes → NoDup (NodeRef <$> res)).
Proof.
  intros (s & He & Hm)%checkLatency_Some Hap.
  pose proof (inv_exec _ _ _ _ He) as Hinv.
  pose proof (apart_result _ _ _ _ _ He Hap Hm) as Hperm.
  destruct (returned_cases _ _ _ _ Hinv Hm)
    as [(e & i & n & ? & _)|[? _]]; simplify_eq.
  split.
  - intros e He'. rewrite Hperm in He'.
    destruct (measurements_elem _ _ _ _ He') as (i & n & Hi & Hme).
    destruct (measured_spec _ _ _ Hme) as (host & port & st & _ & Hw & Hq & ->).
    by exists i, st.
  - intros Hnodes. rewrite Hperm.
    apply (sublist_NoDup _ nodes Hnodes), measurements_peers.
Qed.

(** ** Sorting *)

Lemma ascending_nil : ascending [].
Proof. intros i j a b _ Hi. by rewrite lookup_nil in Hi. Qed.

Lemma ascending_cons x l :
  (∀ y, y ∈ l → (Time x ≤ Time y)%Z) → ascending l → ascending (x :: l).
Proof.
  intros Hx Hl i j a b Hij Hi Hj. destruct j as [|j]; [lia|].
  cbn in Hj. destruct i as [|i]; cbn in Hi.
  - simplify_eq. apply Hx. by eapply list_elem_of_lookup_2.
  - apply (Hl i j); [lia|done..].
Qed.

Lemma ascending_inv x l :
  ascending (x :: l) →
  (∀ y, y ∈ l → (Time x ≤ Time y)%Z) ∧ ascending l.
Proof.
  intros H. split.
  - intros y [k Hk]%list_elem_of_lookup. apply (H 0 (S k)); [lia|done..].
  - intros i j a b Hij Hi Hj. apply (H (S i) (S j)); [lia|done..].
Qed.

Lemma insert_by_perm less x l : insert_by less x l ≡ₚ x :: l.
Proof.
  induction l as [|y l IH]; cbn; [done|].
  destruct (less y x); [|done]. rewrite IH. apply Permutation_swap.
Qed.

Lemma insert_by_ascending x l :
  ascending l → ascending (insert_by less_Time x l).
Proof.
  induction l as [|y l IH]; intros Hl; cbn.
  - apply ascending_cons; [|apply ascending_nil].
    intros y Hy. by apply elem_of_nil in Hy.
  - apply ascending_inv in Hl as [Hy Hl]. unfold less_Time at 1.
    destruct (Z.ltb_spec (Time y) (Time x)) as [Hlt|Hge].
    + apply ascending_cons; [|by apply IH].
      intros z Hz. rewrite insert_by_perm in Hz.
      apply elem_of_cons in Hz as [->|Hz]; [lia|by apply Hy].
    + apply ascending_cons; [|by apply ascending_cons].
      intros z [->|Hz]%elem_of_cons; [done|].
      specialize (Hy z Hz). lia.
Qed.

Lemma insertion_sort_perm less l : insertion_sort less l ≡ₚ l.
Proof.
  unfold insertion_sort. induction l as [|x l IH]; cbn; [done|].
  by rewrite insert_by_perm, IH.
Qed.

Lemma insertion_sort_ascending l : ascending (insertion_sort less_Time l).
Proof.
  unfold insertion_sort. induction l as [|x l IH]; cbn.
  - apply ascending_nil.
  - by apply insert_by_ascending.
Qed.

Lemma insertion_sort_contract : sort_contract insertion_sort.
Proof.
  split; [apply insertion_sort_perm|apply insertion_sort_ascending].
Qed.

(** ** The printing loop *)

Lemma print_loop_spec latency i n :
  i ≤ length latency →
  print_loop latency i n =
    if decide (i + n ≤ length latency)
    then Returned (lines_from i (take n (drop i latency)))
    else Panicked (lines_from i (drop i latency)).
Proof.
  revert i. induction n as [|n IH]; intros i Hi; cbn [print_loop].
  - rewrite decide_True by lia. by rewrite take_0.
  - destruct (latency !! i) as [e|] eqn:He.
    + pose proof (lookup_lt_Some _ _ _ He) as Hlt.
      rewrite (IH (S i)) by lia. rewrite (drop_S _ _ _ He).
      destruct (decide (i + S n ≤ length latency)).
      * rewrite decide_True by lia. done.
      * rewrite decide_False by lia. done.
    + apply lookup_ge_None in He. rewrite decide_False by lia.
      by rewrite drop_ge.
Qed.

Lemma length_lines_from i l : length (lines_from i l) = length l.
Proof. revert i. induction l as [|e l IH]; intros i; cbn; auto. Qed.

Lemma lines_from_lookup i l k e :
  l !! k = Some e → lines_from i l !! k = Some (line_of (i + k) e).
Proof.
  revert i k. induction l as [|x l IH]; intros i k Hk.
  - by rewrite lookup_nil in Hk.
  - destruct k as [|k].
    + cbn in *. simplify_eq. by rewrite Nat.add_0_r.
    + change (lines_from (S i) l !! k = Some (line_of (i + S k) e)).
      rewrite (IH (S i) k Hk). by rewrite Nat.add_succ_r.
Qed.

Lemma lines_from_lookup_inv i l k a :
  lines_from i l !! k = Some a → ∃ e, l !! k = Some e ∧ a = line_of (i + k) e.
Proof.
  intros Hk. destruct (l !! k) as [e|] eqn:He.
  - rewrite (lines_from_lookup _ _ _ _ He) in Hk. simplify_eq. eauto.
  - apply lookup_ge_None in He. apply lookup_lt_Some in Hk.
    rewrite length_lines_from in Hk. lia.
Qed.

(** ** The ranking printed *)

Lemma take_length_take {A} m (l : list A) :
  take (length (take m l)) l = take m l.
Proof.
  rewrite length_take. destruct (decide (m ≤ length l)).
  - by rewrite Nat.min_l.
  - rewrite Nat.min_r by lia. by rewrite !take_ge by lia.
Qed.

(** Whatever [sort.Slice] does, the lines printed are those of a prefix of
    the slice it leaves. *)
Lemma printResult_prefix sort R top :
  length (sort less_Time R) = length R →
  ∃ m, lines_of (printResult sort R top)
       = lines_from 0 (take m (sort less_Time R)).
Proof.
  intros Hlen. unfold printResult.
  rewrite print_loop_spec by lia. rewrite drop_0.
  destruct (decide _); cbn.
  - eauto.
  - exists (length R). by rewrite take_ge by lia.
Qed.

(** C2, what the code prints: the count of lines is [int(top)] only for
    ten entries or more; for fewer than ten entries every entry is printed
    whatever [top] is, and for ten or more with [top] above their number
    the loop runs out of the slice and panics after the last entry. (The
    claim asks for min(top, |R|) lines: the test of line 163 compares with
    the constant 10 instead of [count].) *)
Theorem printResult_line_count sort R top :
  sort_contract sort →
  (length R < 10 →
     printResult sort R top = Returned (lines_from 0 (sort less_Time R))
     ∧ length (lines_of (printResult sort R top)) = length R)
  ∧ (10 ≤ length R → (int_of_uint top ≤ Z.of_nat (length R))%Z →
     printResult sort R top
     = Returned (lines_from 0 (take (Z.to_nat (int_of_uint top))
                                    (sort less_Time R)))
     ∧ length (lines_of (printResult sort R top))
       = Z.to_nat (int_of_uint top))
  ∧ (10 ≤ length R → (Z.of_nat (length R) < int_of_uint top)%Z →
     printResult sort R top = Panicked (lines_from 0 (sort less_Time R))).
Proof.
  intros [Hperm _].
  assert (Hlen : length (sort less_Time R) = length R)
    by (by rewrite Hperm).
  unfold printResult. rewrite print_loop_spec by lia. rewrite drop_0.
  split; [|split].
  - intros Hlt. destruct (Nat.ltb_spec (length R) 10); [|lia].
    rewrite Nat2Z.id. rewrite decide_True by lia.
    rewrite take_ge by lia. cbn. by rewrite length_lines_from.
  - intros Hge Htop. destruct (Nat.ltb_spec (length R) 10); [lia|].
    rewrite decide_True by lia. cbn.
    rewrite length_lines_from, length_take. split; [done|lia].
  - intros Hge Htop. destruct (Nat.ltb_spec (length R) 10); [lia|].
    rewrite decide_False by lia. done.
Qed.

Lemma Milliseconds_mono a b : (a ≤ b)%Z → (Milliseconds a ≤ Milliseconds b)%Z.
Proof. intros H. unfold Milliseconds. apply Z.quot_le_mono; lia. Qed.

(** C5, as the code has it: the lines printed are the first lines of an
    ascending rearrangement of the result set, so for positions i < j of
    the output the latency printed at i is at most the one printed at j.
    The order of entries of equal latency is the one [sort.Slice] leaves,
    which package sort does not promise to be the append order. *)
Theorem ranking_ascending sort R top :
  sort_contract sort →
  (∀ i j a b, i < j →
     lines_of (printResult sort R top) !! i = Some a →
     lines_of (printResult sort R top) !! j = Some b →
     (line_ms a ≤ line_ms b)%Z)
  ∧ ∃ ranked,
      ranked ≡ₚ R ∧ ascending ranked
      ∧ lines_of (printResult sort R top)
        = lines_from 0 (take (length (lines_of (printResult sort R top)))
                             ranked).
Proof.
  intros [Hperm Hasc].
  destruct (printResult_prefix sort R top) as [m Hm]; [by rewrite Hperm|].
  rewrite Hm. split.
  - intros i j a b Hij Hi Hj.
    apply lines_from_lookup_inv in Hi as (ea & Hea & ->).
    apply lines_from_lookup_inv in Hj as (eb & Heb & ->).
    apply lookup_take_Some in Hea as [Hea _].
    apply lookup_take_Some in Heb as [Heb _].
    cbn. apply Milliseconds_mono. by apply (Hasc R i j).
  - exists (sort less_Time R). split; [done|]. split; [done|].
    by rewrite length_lines_from, take_length_take.
Qed.

(** ** The endpoint *)

(** C9, as the code has it: a value that [url.Parse] rejects makes
    [buildURL] return that error; a value whose parse has both a scheme
    and a host gives the parsed URL written back by [URL.String] (the
    value itself whenever writing back a parsed URL gives the text that
    was parsed); any other value gives [http://api.<value>.solana.com]
    parsed and written back, or the error of that second parse. *)
Theorem buildURL_cases `{NetURL} urlKey :
  (∀ e, url_Parse urlKey = Err e → buildURL urlKey = Err e)
  ∧ (∀ u1, url_Parse urlKey = Ok u1 →
       URL_Scheme u1 ≠ EmptyString → URL_Host u1 ≠ EmptyString →
       buildURL urlKey = Ok (URL_String u1)
       ∧ ((∀ v u, url_Parse v = Ok u → URL_String u = v) →
          buildURL urlKey = Ok urlKey))
  ∧ (∀ u1, url_Parse urlKey = Ok u1 →
       URL_Scheme u1 = EmptyString ∨ URL_Host u1 = EmptyString →
       (∀ e, url_Parse (api_url urlKey) = Err e → buildURL urlKey = Err e)
       ∧ (∀ u2, url_Parse (api_url urlKey) = Ok u2 →
            buildURL urlKey = Ok (URL_String u2)
            ∧ ((∀ v u, url_Parse v = Ok u → URL_String u = v) →
               buildURL urlKey = Ok (api_url urlKey)))).
Proof.
  unfold buildURL. split; [|split].
  - by intros e ->.
  - intros u1 Hu1 Hs Hh. rewrite Hu1.
    apply String.eqb_neq in Hs, Hh. rewrite Hs, Hh. cbn.
    split; [done|]. intros Hround. by rewrite (Hround urlKey u1 Hu1).
  - intros u1 Hu1 Hempty. rewrite Hu1.
    assert (String.eqb (URL_Scheme u1) EmptyString
            || String.eqb (URL_Host u1) EmptyString = true) as Htest.
    { apply orb_true_iff.
      destruct Hempty as [Hs|Hh]; [left; rewrite Hs|right; rewrite Hh];
        apply String.eqb_refl. }
    rewrite Htest.
    split.
    + by intros e ->.
    + intros u2 Hu2. rewrite Hu2. split; [done|].
      intros Hround. by rewrite (Hround _ u2 Hu2).
Qed.


(** * Further properties of the code *)

(** ** Gossip addresses *)

Lemma split_colon_length s : length (split_colon s) = S (colons s).
Proof.
  induction s as [|c r IH]; cbn; [done|].
  destruct (Ascii.eqb c ":"); cbn; [by rewrite IH|].
  destruct (split_colon r); cbn in *; lia.
Qed.

Lemma split_colon_join s : join_colon (split_colon s) = s.
Proof.
  induction s as [|c r IH]; [done|]. cbn [split_colon].
  destruct (Ascii.eqb_spec c ":") as [->|_].
  - pose proof (split_colon_length r) as Hlen.
    destruct (split_colon r) as [|p rest]; [cbn in Hlen; lia|].
    cbn [join_colon] in *. by rewrite IH.
  - pose proof (split_colon_length r) as Hlen.
    destruct (split_colon r) as [|p rest]; [cbn in Hlen; lia|].
    destruct rest; cbn in *; by rewrite <- IH.
Qed.

Lemma split_colon_parts s : Forall (λ p, colons p = 0) (split_colon s).
Proof.
  induction s as [|c r IH]; cbn [split_colon]; [by repeat constructor|].
  destruct (Ascii.eqb c ":") eqn:Hc; [by constructor|].
  destruct (split_colon r) as [|p rest]; [by repeat constructor; cbn; rewrite Hc|].
  apply Forall_cons in IH as [Hp Hrest]. constructor; [|done].
  cbn. by rewrite Hc, Hp.
Qed.

(** X1. A gossip address that does not hold exactly one colon (no port, or an
    IPv6 literal with its port) makes the task return "invalid gossip ip"
    whatever the network would answer: no pinger is made for it. *)
Theorem gossip_needs_one_colon node o :
  colons (Gossip node) ≠ 1 →
  after_probe node o = TDefer (Some invalid_gossip).
Proof.
  intros Hc. unfold after_probe. rewrite split_colon_length.
  destruct (Nat.eqb_spec (S (colons (Gossip node))) 2); [lia|done].
Qed.

(** X2. An entry of the result set carries the average round-trip time of its
    peer's probe, the peer's record, and as IP the text of the gossip
    address up to its only colon. *)
Theorem measured_entry node o e :
  measured node o = Some e →
  ∃ port st,
    Gossip node = IP e +:+ ":" +:+ port
    ∧ colons (IP e) = 0 ∧ colons port = 0
    ∧ o = RunReturns st ∧ Time e = AvgRtt st ∧ NodeRef e = node.
Proof.
  intros (host & port & st & Hs & -> & _ & ->)%measured_spec.
  exists port, st. cbn.
  pose proof (split_colon_join (Gossip node)) as Hj.
  pose proof (split_colon_parts (Gossip node)) as Hp.
  rewrite Hs in Hj, Hp. cbn in Hj.
  apply Forall_cons in Hp as [Hh Hp]. apply Forall_cons in Hp as [Hpt _].
  done.
Qed.

(** ** The return of checkLatency *)

(** X3. [checkLatency] returns a nil slice and an error exactly when the task
    of some peer returns an error (malformed address, [ping.NewPinger] or
    [pinger.Run] failing); the error is then that of one of these tasks.
    Otherwise it returns a non-nil slice and no error: packet loss on any
    number of peers does not fail the run. *)
Theorem checkLatency_fails_iff w nodes sched r :
  checkLatency w sched {| Result := nodes |} = Some r →
  ((∃ i n e, nodes !! i = Some n ∧ task_error n (w i) = Some e)
   ↔ ∃ e, r = (None, Some e))
  ∧ (∀ e, r.2 = Some e →
       ∃ i n, nodes !! i = Some n ∧ task_error n (w i) = Some e)
  ∧ ((∀ i n, nodes !! i = Some n → task_error n (w i) = None)
     ↔ ∃ res, r = (Some res, None)).
Proof.
  intros (s & He & Hm)%checkLatency_Some.
  pose proof (inv_exec _ _ _ _ He) as Hinv.
  destruct (returned_cases _ _ _ _ Hinv Hm)
    as [(e & i & n & -> & Hi & Herr)|[-> Hnone]].
  - split; [|split].
    + split; [eauto|]. intros _. eauto.
    + intros e' He'. cbn in He'. simplify_eq. eauto.
    + split; [|by intros [res ?]].
      intros Hall. rewrite (Hall i n Hi) in Herr. done.
  - split; [|split].
    + split; [|by intros [e ?]].
      intros (i & n & e & Hi & Herr). rewrite (Hnone i n Hi) in Herr. done.
    + intros e He'. done.
    + split; [eauto|done].
Qed.

Lemma eg_err_kept w l s s' e :
  step w l s = Some s' → eg_err s = Some e → eg_err s' = Some e.
Proof. intros H He. step_cases H; by simplify_eq. Qed.

(** X4. The error group keeps the first error a task hands to it: once an
    error is recorded, no later failure replaces it, and it is the error
    [checkLatency] returns. *)
Theorem first_error_wins w nodes sched1 sched2 s1 s2 e :
  exec w sched1 (init nodes) = Some s1 →
  eg_err s1 = Some e →
  exec w sched2 s1 = Some s2 →
  eg_err s2 = Some e
  ∧ ∀ r, main_at s2 = MReturned r → r = (None, Some e).
Proof.
  intros He1 Herr He2.
  assert (Hkept : eg_err s2 = Some e).
  { revert He2. apply (exec_invariant w (λ s, eg_err s = Some e)); [|done].
    intros l sa sb Ha Hs. by eapply eg_err_kept. }
  split; [done|]. intros r Hm.
  assert (Hinv : inv w nodes s2).
  { revert He2. apply (exec_invariant w (inv w nodes)).
    - intros l sa sb. apply inv_step.
    - by eapply inv_exec. }
  destruct Hinv as [_ [_ _ Hr] _ _ _ _ _]. destruct (Hr r Hm) as [_ ->].
  unfold wait_returns. by rewrite Hkept.
Qed.

(** ** Liveness of the probing engine *)

(** X5. The engine cannot run forever and cannot deadlock: a schedule for [M]
    peers has at most [8 M + 3] steps, a reachable state from which
    [checkLatency] has not returned always has a step to take, and some
    continuation of the schedule reaches the return. *)
Theorem checkLatency_never_stuck w nodes sched s :
  exec w sched (init nodes) = Some s →
  length sched ≤ 8 * length nodes + 3
  ∧ ((∀ r, main_at s ≠ MReturned r) → ∃ l s', step w l s = Some s')
  ∧ ∃ sched' s' r, exec w sched' s = Some s' ∧ main_at s' = MReturned r.
Proof.
  intros He. pose proof (inv_exec _ _ _ _ He) as Hinv. split; [|split].
  - pose proof (exec_length _ _ _ _ He) as Hlen.
    unfold steps_left in Hlen at 2. cbn in Hlen. lia.
  - by apply (progress w nodes).
  - by apply (runs_to_return w nodes (steps_left s)).
Qed.

(** X6. The loop is held at its send exactly when [concurrency] tasks are in
    flight: with a free slot the next task is never kept waiting. *)
Theorem loop_blocked_iff_full w nodes sched s :
  exec w sched (init nodes) = Some s →
  main_at s = MSend → todo s ≠ [] →
  step w LMain s = None ↔ in_flight s = concurrency.
Proof.
  intros He Hm Ht.
  pose proof (inv_exec _ _ _ _ He) as [[Hc Hb _] _ _ _ _ _ _].
  unfold reserved in Hc. rewrite Hm in Hc. cbn. unfold main_step. rewrite Hm.
  destruct (todo s) as [|n rest]; [done|].
  destruct (decide (sem s < concurrency)); split; (done || lia).
Qed.

(** X7. Once [checkLatency] has returned nothing moves any more: every peer
    has had its task, every task is over with the outcome of its probe,
    and the bar is finished. *)
Theorem nothing_moves_after_return w nodes sched s r :
  exec w sched (init nodes) = Some s →
  main_at s = MReturned r →
  (∀ l, step w l s = None)
  ∧ length (tasks s) = length nodes
  ∧ (∀ i n, nodes !! i = Some n →
       tasks s !! i = Some (Task n (TDone (task_error n (w i)))))
  ∧ bar_finished s = true.
Proof.
  intros He Hm. pose proof (inv_exec _ _ _ _ He) as Hinv.
  pose proof Hinv as [_ Hmain _ _ _ _ _].
  pose proof (returned_not_launching s r Hm) as Hnl.
  split; [|split; [|split]].
  - intros l. by eapply returned_stuck.
  - by eapply all_launched.
  - intros i n Hi. by eapply returned_tasks.
  - destruct Hmain as [_ Hb _]. by apply Hb.
Qed.

(** ** Launch order and progress *)

(** X8. The tasks launched so far are those of the first peers of the list,
    in list order, and the peers still to launch are the rest of it: each
    peer gets one task. *)
Theorem launch_order w nodes sched s :
  exec w sched (init nodes) = Some s →
  t_node <$> tasks s = take (length (tasks s)) nodes
  ∧ todo s = drop (length (tasks s)) nodes.
Proof.
  intros He. pose proof (inv_exec _ _ _ _ He) as [_ _ Hl _ _ _ _].
  unfold launched_inv in Hl. rewrite <- Hl.
  rewrite <- (length_fmap t_node).
  by rewrite take_app_length, drop_app_length.
Qed.

Lemma signalled_le_length ts : sum_list_with signalled ts ≤ length ts.
Proof.
  induction ts as [|[n pc] ts IH]; cbn; [lia|].
  unfold signalled at 1. cbn. destruct pc as [| | | |[]|[]|[]]; lia.
Qed.

(** X9. The bar never counts more signals than tasks have been launched, nor
    more than the total it was started with. *)
Theorem bar_within_total w nodes sched s :
  exec w sched (init nodes) = Some s →
  bar_current s ≤ length (tasks s) ∧ length (tasks s) ≤ length nodes.
Proof.
  intros He. pose proof (inv_exec _ _ _ _ He) as [_ _ Hl _ _ Hbar _].
  split.
  - rewrite Hbar. apply signalled_le_length.
  - unfold launched_inv in Hl. rewrite <- Hl, length_app, length_fmap. lia.
Qed.

(** ** More on the ranking *)

(** X10. The line at position [k] is numbered [k] and is that of an entry of
    the result set; the first line shows the lowest latency of the whole
    set. *)
Theorem first_line_is_minimum sort R top k a :
  sort_contract sort →
  lines_of (printResult sort R top) !! k = Some a →
  line_index a = Z.of_nat k
  ∧ (∃ e, e ∈ R ∧ a = line_of k e)
  ∧ (k = 0 → ∀ e, e ∈ R → (line_ms a ≤ Milliseconds (Time e))%Z).
Proof.
  intros [Hperm Hasc] Ha.
  destruct (printResult_prefix sort R top) as [m Hm]; [by rewrite Hperm|].
  rewrite Hm in Ha. apply lines_from_lookup_inv in Ha as (e & He & ->).
  apply lookup_take_Some in He as [He _].
  split; [done|]. split.
  - exists e. split; [|done]. rewrite <- (Hperm R).
    by eapply list_elem_of_lookup_2.
  - intros -> e' He'. cbn. apply Milliseconds_mono.
    rewrite <- (Hperm R) in He'. apply list_elem_of_lookup in He' as [j Hj].
    destruct j as [|j]; [by simplify_eq|].
    apply (Hasc R 0 (S j)); [lia|done..].
Qed.

(** X11. With ten entries or more, [top] = 0 prints nothing, and so does a
    [top] of 2^63 or more, which [int(top)] reads as a negative count: the
    loop is not entered and nothing panics. *)
Theorem no_line_without_positive_count sort R top :
  10 ≤ length R →
  top = 0%Z ∨ (2 ^ 63 ≤ top < 2 ^ 64)%Z →
  printResult sort R top = Returned [].
Proof.
  intros Hlen Htop. unfold printResult.
  destruct (Nat.ltb_spec (length R) 10); [lia|].
  assert (Z.to_nat (int_of_uint top) = 0) as ->; [|done].
  unfold int_of_uint. destruct Htop as [->|Hbig]; [done|].
  destruct (Z.ltb_spec top (2 ^ 63)); lia.
Qed.

(** ** The command, end to end *)

Lemma apart_result_length w nodes sched s r :
  exec w sched (init nodes) = Some s →
  apart w sched (init nodes) = true →
  main_at s = MReturned r →
  length (result s) ≤ length nodes.
Proof.
  intros He Hap Hm. rewrite (apart_result _ _ _ _ _ He Hap Hm).
  apply measurements_length_le.
Qed.

(** X12. The output is all or nothing: the command prints a ranking line only
    if the endpoint was built, the peer list fetched, and the task of
    every peer of the list returned no error. *)
Theorem ranking_needs_every_task `{NetURL} `{NetHTTP} sort w urlKey top
    sched run :
  main sort w urlKey top sched = Some run →
  stdout (ended run) ≠ [] →
  ∃ url nodes,
    buildURL urlKey = Ok url
    ∧ getClusterNodes url = Ok {| Result := nodes |}
    ∧ ∀ i n, nodes !! i = Some n → task_error n (w i) = None.
Proof.
  intros Hrun Hout.
  destruct (buildURL urlKey) as [url|e] eqn:Hb;
    [|unfold main in Hrun; rewrite Hb in Hrun; by simplify_eq].
  destruct (getClusterNodes url) as [[nodes]|e] eqn:Hg;
    [|unfold main in Hrun; rewrite Hb, Hg in Hrun; by simplify_eq].
  exists url, nodes. split; [done|]. split; [done|].
  destruct (main_checkLatency _ _ _ _ _ _ _ _ Hb Hg Hrun) as (r & Hr & Hend).
  apply checkLatency_Some in Hr as (s & He & Hm).
  pose proof (inv_exec _ _ _ _ He) as Hinv.
  destruct (returned_cases _ _ _ _ Hinv Hm)
    as [(e & i & n & -> & _)|[-> Hnone]]; [|done].
  rewrite Hend in Hout. done.
Qed.

Lemma printResult_short sort R top :
  sort_contract sort → length R < 10 →
  printResult sort R top = Returned (lines_from 0 (sort less_Time R)).
Proof.
  intros [Hperm _] Hlt. unfold printResult.
  assert (Hlen : length (sort less_Time R) = length R) by (by rewrite Hperm).
  rewrite print_loop_spec by lia. rewrite drop_0.
  destruct (Nat.ltb_spec (length R) 10); [|lia].
  rewrite Nat2Z.id, decide_True by lia. by rewrite take_ge by lia.
Qed.

(** X13. With fewer than ten peers in the list and appends that do not
    overlap, the command never panics: it ends with status 0 or in
    [log.Fatal]. *)
Theorem short_list_never_panics `{NetURL} `{NetHTTP} sort w urlKey url nodes
    top sched run :
  sort_contract sort →
  buildURL urlKey = Ok url →
  getClusterNodes url = Ok {| Result := nodes |} →
  length nodes < 10 →
  apart w sched (init nodes) = true →
  main sort w urlKey top sched = Some run →
  exit_code (ended run) = 0%Z ∨ exit_code (ended run) = 1%Z.
Proof.
  intros Hsort Hb Hg Hlen Hap Hrun.
  destruct (main_checkLatency _ _ _ _ _ _ _ _ Hb Hg Hrun) as (r & Hr & Hend).
  apply checkLatency_Some in Hr as (s & He & Hm).
  pose proof (inv_exec _ _ _ _ He) as Hinv.
  pose proof (apart_result_length _ _ _ _ _ He Hap Hm) as Hres.
  destruct (returned_cases _ _ _ _ Hinv Hm)
    as [(e & i & n & -> & _)|[-> _]].
  - right. by rewrite Hend.
  - left. cbn in Hend.
    rewrite (printResult_short sort (result s) top) in Hend;
      [by rewrite Hend|done|lia].
Qed.

(** X14. When every peer of a list of fewer than ten has a well-formed address
    and a probe without loss, and the appends of the tasks do not overlap,
    the command ends with status 0 and prints one line per peer: the lines
    of the measurements in ascending order of latency, whatever [top] is. *)
Theorem measured_peers_all_ranked `{NetURL} `{NetHTTP} sort w urlKey url nodes
    top sched run :
  sort_contract sort →
  buildURL urlKey = Ok url →
  getClusterNodes url = Ok {| Result := nodes |} →
  length nodes < 10 →
  (∀ i n, nodes !! i = Some n → is_Some (measured n (w i))) →
  apart w sched (init nodes) = true →
  main sort w urlKey top sched = Some run →
  ∃ ranked,
    ended run = Exit0 (lines_from 0 ranked)
    ∧ ranked ≡ₚ measurements w 0 nodes
    ∧ ascending ranked
    ∧ length ranked = length nodes.
Proof.
  intros Hsort Hb Hg Hlen Hall Hap Hrun.
  destruct (main_checkLatency _ _ _ _ _ _ _ _ Hb Hg Hrun) as (r & Hr & Hend).
  apply checkLatency_Some in Hr as (s & He & Hm).
  pose proof (inv_exec _ _ _ _ He) as Hinv.
  pose proof (apart_result _ _ _ _ _ He Hap Hm) as Hperm.
  destruct (returned_cases _ _ _ _ Hinv Hm)
    as [(e & i & n & -> & Hi & Herr)|[-> _]].
  - destruct (Hall i n Hi) as [e' He'].
    rewrite (measured_no_error _ _ _ He') in Herr. done.
  - cbn in Hend.
    pose proof (apart_result_length _ _ _ _ _ He Hap Hm) as Hres.
    rewrite (printResult_short sort (result s) top) in Hend by (done || lia).
    destruct Hsort as [Hp Ha].
    exists (sort less_Time (result s)). split; [done|]. split; [|split].
    + by rewrite Hp.
    + apply Ha.
    + rewrite Hp, Hperm. by apply (measurements_length w 0).
Qed.

(** * Executions *)

Import Scenario.

(** C1 fails on the scenario of the specification, peers A, B, C with B's
    address malformed and the probes of A and C answered: [checkLatency]
    returns B's error and no slice, and the command ends in [log.Fatal]
    with status 1 and nothing printed. *)
Lemma malformed_peer_counterexample :
  checkLatency net abc_sched {| Result := [A; B; C] |}
  = Some (None, Some invalid_gossip)
  ∧ ∃ run,
      main (net_url := UrlFragment.net_url) (net_http := serving [A; B; C])
        insertion_sort net "mainnet-beta" 10 abc_sched = Some run
      ∧ ended run = Fatal invalid_gossip
      ∧ stdout (ended run) = []
      ∧ exit_code (ended run) = 1%Z.
Proof.
  split; [by vm_compute|]. eexists. split; [by vm_compute|]. done.
Qed.

Lemma malformed_peer_is_fatal_witness :
  (∃ sched, checkLatency net sched {| Result := [A; B; C] |}
            = Some (None, Some invalid_gossip))
  ∧ (∀ sched r, checkLatency net sched {| Result := [A; B; C] |} = Some r →
                r = (None, Some invalid_gossip))
  ∧ (∀ sched s r, exec net sched (init [A; B; C]) = Some s →
       main_at s = MReturned r →
       length (tasks s) = length [A; B; C]
       ∧ (∀ i n, [A; B; C] !! i = Some n →
            ∃ pc, tasks s !! i = Some (Task n pc) ∧ is_done (Task n pc) = true)
       ∧ tasks s !! 1 = Some (Task B (TDone (Some invalid_gossip)))
       ∧ in_flight s = 0).
Proof.
  refine (let H := malformed_peer_is_fatal net [A; B; C] 1 B _ _ _ in
          conj (proj1 H) (conj (proj1 (proj2 H)) (proj1 (proj2 (proj2 H))))).
  - reflexivity.
  - vm_compute. lia.
  - intros [|[|[|i]]] n Hne Hi; vm_compute in Hi; try done.
    + injection Hi as <-. vm_compute. by eexists.
    + injection Hi as <-. vm_compute. by eexists.
Defined.

(** With three measurements and [top] = 1 the code prints three lines. *)
Lemma printResult_line_count_witness :
  printResult insertion_sort three 1
  = Returned (lines_from 0 (insertion_sort less_Time three))
  ∧ length (lines_of (printResult insertion_sort three 1)) = length three.
Proof.
  refine (proj1 (printResult_line_count insertion_sort three 1
                   insertion_sort_contract) _).
  vm_compute. lia.
Defined.

(** The two lines of the specification's scenario, for A and C alone. *)
Example ranking_of_two :
  stdout <$> (ended <$> main (net_url := UrlFragment.net_url)
                          (net_http := serving [A; C])
                          insertion_sort net "mainnet-beta" 10
                          (one_by_one 0 2))
  = Some [ "[0] time:20ms, ip:10.0.0.2, pubkey:C" +:+ newline;
           "[1] time:50ms, ip:10.0.0.1, pubkey:A" +:+ newline ].
Proof. by vm_compute. Qed.

Example printResult_top_ignored :
  lines_of (printResult insertion_sort three 1)
  = [ {| line_index := 0; line_ms := 20; line_ip := "10.0.0.2";
         line_pubkey := "C" |};
      {| line_index := 1; line_ms := 30; line_ip := "10.0.0.3";
         line_pubkey := "D" |};
      {| line_index := 2; line_ms := 50; line_ip := "10.0.0.1";
         line_pubkey := "A" |} ]
  ∧ requested_lines 1 three = 1.
Proof. by vm_compute. Qed.

Example printResult_panics :
  printResult insertion_sort (replicate 10 eA) 11
  = Panicked (lines_from 0 (replicate 10 eA)).
Proof. by vm_compute. Qed.

(** Twenty-five peers whose probes all hang: twenty tasks are in flight
    and the loop is blocked at its send. *)
Lemma in_flight_bounded_witness :
  ∃ s, exec net (replicate 40 LMain) (init (replicate 25 A)) = Some s
       ∧ in_flight s = 20 ∧ in_flight s ≤ 20.
Proof.
  eexists. split; [by vm_compute|]. split; [by vm_compute|].
  refine (proj1 (in_flight_bounded net (replicate 25 A)
                   (replicate 40 LMain) _ _)).
  by vm_compute.
Defined.

Example loop_blocked_at_cap :
  exec net (replicate 41 LMain) (init (replicate 25 A)) = None.
Proof. by vm_compute. Qed.

(** C4, what the code does when two appends overlap: the tasks of A and
    C both read [result] before either stores; A's task stores its
    measurement, C's task then stores the slice it had read plus its own,
    and [checkLatency] returns without A's measurement and without an
    error. Line 147 appends under no lock. *)
(** A raced store may leave anything: here a slice of four entries of
    which the third append is lost and the last is a zero value. *)
Example raced_store_leaves_zero_entry :
  checkLatency quick (raced_sched [e5 "1"; e5 "2"; e5 "4"; zero_entry])
    {| Result := five |}
  = Some (Some [e5 "1"; e5 "2"; e5 "4"; zero_entry], None).
Proof. by vm_compute. Qed.

(** A store that has not raced is the ordinary store only. *)
Example store_without_race :
  exec net (launch ++ replicate 2 (LTask 0) ++ [LRace 0 []]) (init [A; C])
  = None.
Proof. by vm_compute. Qed.

Lemma appends_overlap_lose_measurement :
  result <$> exec net (take 9 overlap_sched) (init [A; C]) = Some [eA]
  ∧ checkLatency net overlap_sched {| Result := [A; C] |}
    = Some (Some [eC], None)
  ∧ measurements net 0 [A; C] = [eA; eC]
  ∧ apart net overlap_sched (init [A; C]) = false.
Proof. by vm_compute. Qed.

(** C5 fails from thirteen entries on. Twelve entries of equal latency
    appended as A to L and a faster one appended last: [sort.Slice] picks
    the entry at index 6 as pivot and swaps it with the first, the
    partition swaps the second with the last, and G is printed before A
    and B after L. In append order the ties would read A to L. *)
Lemma ranking_unstable_counterexample :
  line_pubkey <$> lines_of (printResult go_Slice thirteen 13)
  = ["M"; "G"; "C"; "D"; "E"; "F"; "A"; "H"; "I"; "J"; "K"; "L"; "B"]
  ∧ line_ms <$> lines_of (printResult go_Slice thirteen 13)
    = [1; 5; 5; 5; 5; 5; 5; 5; 5; 5; 5; 5; 5]%Z
  ∧ line_pubkey <$> lines_from 0 (stable_ranking thirteen)
    = ["M"; "A"; "B"; "C"; "D"; "E"; "F"; "G"; "H"; "I"; "J"; "K"; "L"].
Proof. by vm_compute. Qed.

(** Up to twelve entries [sort.Slice] sorts by insertion and keeps ties in
    append order. *)
Example ranking_of_twelve :
  line_pubkey <$> lines_of (printResult go_Slice (drop 1 thirteen) 12)
  = ["M"; "B"; "C"; "D"; "E"; "F"; "G"; "H"; "I"; "J"; "K"; "L"].
Proof. by vm_compute. Qed.

Lemma ranking_ascending_witness :
  (∀ i j a b, i < j →
     lines_of (printResult insertion_sort three 10) !! i = Some a →
     lines_of (printResult insertion_sort three 10) !! j = Some b →
     (line_ms a ≤ line_ms b)%Z)
  ∧ ∃ ranked,
      ranked ≡ₚ three ∧ ascending ranked
      ∧ lines_of (printResult insertion_sort three 10)
        = lines_from 0
            (take (length (lines_of (printResult insertion_sort three 10)))
                  ranked).
Proof.
  exact (ranking_ascending insertion_sort three 10 insertion_sort_contract).
Defined.

(** C6 fails for a peer list that names a peer twice: both tasks append,
    and the result set holds the peer twice. *)
Lemma duplicate_peers_counterexample :
  ∃ res, checkLatency net (one_by_one 0 2) {| Result := [A; A] |}
         = Some (Some res, None)
         ∧ apart net (one_by_one 0 2) (init [A; A]) = true
         ∧ NodeRef <$> res = [A; A]
         ∧ ¬ NoDup (NodeRef <$> res).
Proof.
  eexists. split; [by vm_compute|]. split; [by vm_compute|]. split; [done|].
  intros [Hnot _]%NoDup_cons. apply Hnot. left.
Qed.

(** A peer whose probe lost packets is not appended, signals the bar, and
    does not fail the run. *)
Example lossy_peer_skipped :
  ∃ s, exec (λ _, lossy (ms 70)) (launch ++ replicate 4 (LTask 0)
                                   ++ [LMain; LMain]) (init [A]) = Some s
       ∧ main_at s = MReturned (Some [], None)
       ∧ bar_current s = 1.
Proof. eexists. split; [by vm_compute|]. done. Qed.

Lemma result_zero_loss_distinct_witness :
  (∀ e, e ∈ [eA; eC] →
     ∃ i st, [A; C] !! i = Some (NodeRef e)
             ∧ net i = RunReturns st
             ∧ (PacketLoss st == 0)%Q
             ∧ Time e = AvgRtt st)
  ∧ (NoDup [A; C] → NoDup (NodeRef <$> [eA; eC])).
Proof.
  apply (result_zero_loss_distinct net [A; C] (one_by_one 0 2) [eA; eC] None);
    by vm_compute.
Defined.

(** C7 fails twice: a peer whose task returns an error never signals the
    bar, and the bar is finished while a task that will signal it has not
    yet moved. *)
Lemma bar_counterexample :
  (∃ s r, exec net (launch ++ failing_task 0 ++ [LMain; LMain]) (init [B])
          = Some s
          ∧ main_at s = MReturned r ∧ bar_current s = 0)
  ∧ (∃ s, exec net early_finish (init [A]) = Some s
          ∧ bar_finished s = true ∧ bar_current s = 0
          ∧ tasks s = [Task A TProbe])
  ∧ (∃ s, exec net (early_finish ++ whole_task 0) (init [A]) = Some s
          ∧ bar_current s = 1).
Proof.
  split; [|split].
  - eexists _, _. split; [by vm_compute|]. done.
  - eexists. split; [by vm_compute|]. done.
  - eexists. split; [by vm_compute|]. done.
Qed.

Lemma bar_signals_witness :
  ∃ s, exec net abc_sched (init [A; B; C]) = Some s
       ∧ bar_current s = 2
       ∧ (∀ r, main_at s = MReturned r → bar_current s = signals net 0 [A; B; C]).
Proof.
  eexists. split; [by vm_compute|]. split; [done|].
  refine (proj1 (proj2 (bar_signals net [A; B; C] abc_sched _ _))).
  by vm_compute.
Defined.

(** A server that answers with something that is not JSON. *)
Lemma fetch_failure_is_fatal_witness :
  ∃ run,
    main (net_url := UrlFragment.net_url) (net_http := garbled)
      insertion_sort net "mainnet-beta" 10 [] = Some run
    ∧ fanout run = None
    ∧ stdout (ended run) = []
    ∧ logged (ended run)
      = ["invalid character '<' looking for beginning of value"]
    ∧ exit_code (ended run) = 1%Z.
Proof.
  apply (@fetch_failure_is_fatal UrlFragment.net_url garbled).
  right. exists "http://api.mainnet-beta.solana.com".
  split; [by vm_compute|]. right. exists tt. split; [done|].
  right. by exists "<html>".
Defined.

(** C9 fails for a value that [url.Parse] rejects, for which [buildURL]
    returns the error, and for a value with scheme and host that
    [URL.String] does not write back as it was read. *)
Lemma buildURL_counterexample :
  buildURL (H := UrlFragment.net_url) ":"
  = Err ("parse " +:+ quoted ":" +:+ ": missing protocol scheme")
  ∧ (∃ u, url_Parse (NetURL := UrlFragment.net_url) "HTTP://Example.com"
          = Ok u
          ∧ URL_Scheme u ≠ EmptyString ∧ URL_Host u ≠ EmptyString)
  ∧ buildURL (H := UrlFragment.net_url) "HTTP://Example.com"
    = Ok "http://Example.com".
Proof.
  split; [by vm_compute|]. split; [|by vm_compute].
  eexists. split; [by vm_compute|]. by vm_compute.
Qed.

(** The default value of the flag. *)
Lemma buildURL_cases_witness :
  buildURL (H := UrlFragment.net_url) "mainnet-beta"
  = Ok "http://api.mainnet-beta.solana.com".
Proof.
  destruct (buildURL_cases (H := UrlFragment.net_url) "mainnet-beta")
    as (_ & _ & Hshort).
  destruct (Hshort {| UrlFragment.scheme := EmptyString;
                      UrlFragment.host := EmptyString;
                      UrlFragment.path := "mainnet-beta" |}) as [_ Hok].
  - by vm_compute.
  - by left.
  - refine (proj1 (Hok {| UrlFragment.scheme := "http";
                          UrlFragment.host := "api.mainnet-beta.solana.com";
                          UrlFragment.path := EmptyString |} _)).
    by vm_compute.
Defined.

(** A server that answers with an empty peer list. *)
Lemma empty_peer_list_witness :
  (∃ sched run,
     main (net_url := UrlFragment.net_url) (net_http := serving [])
       insertion_sort net "mainnet-beta" 10 sched = Some run)
  ∧ ∀ sched run,
      main (net_url := UrlFragment.net_url) (net_http := serving [])
        insertion_sort net "mainnet-beta" 10 sched = Some run →
      ended run = Exit0 [] ∧ stdout (ended run) = []
      ∧ exit_code (ended run) = 0%Z.
Proof.
  refine (proj2 (proj2 (proj2
    (@empty_peer_list UrlFragment.net_url (serving []) insertion_sort net
       "mainnet-beta" "http://api.mainnet-beta.solana.com" 10))) _ _);
    by vm_compute.
Defined.

(** ** Executions for the further properties *)

Lemma gossip_needs_one_colon_witness :
  after_probe V6 (clean (ms 1)) = TDefer (Some invalid_gossip)
  ∧ after_probe B (clean (ms 1)) = TDefer (Some invalid_gossip).
Proof.
  split; apply gossip_needs_one_colon; vm_compute; lia.
Defined.

Lemma measured_entry_witness :
  ∃ port st,
    Gossip A = IP eA +:+ ":" +:+ port
    ∧ colons (IP eA) = 0 ∧ colons port = 0
    ∧ clean (ms 50) = RunReturns st ∧ Time eA = AvgRtt st ∧ NodeRef eA = A.
Proof. apply (measured_entry A (clean (ms 50)) eA). by vm_compute. Defined.

Lemma checkLatency_fails_iff_witness :
  ((∃ i n e, [A; B; C] !! i = Some n ∧ task_error n (net i) = Some e)
   ↔ ∃ e, ((None, Some invalid_gossip) : returned) = (None, Some e))
  ∧ (∀ e, ((None, Some invalid_gossip) : returned).2 = Some e →
       ∃ i n, [A; B; C] !! i = Some n ∧ task_error n (net i) = Some e)
  ∧ ((∀ i n, [A; B; C] !! i = Some n → task_error n (net i) = None)
     ↔ ∃ res, ((None, Some invalid_gossip) : returned) = (Some res, None)).
Proof.
  apply (checkLatency_fails_iff net [A; B; C] abc_sched). by vm_compute.
Defined.

(** Two tasks fail; the malformed address is handed to the group first
    and is the error returned. *)
Lemma first_error_wins_witness :
  ∃ s1 s2,
    exec denied (launch ++ launch ++ failing_task 1) (init [A; B]) = Some s1
    ∧ exec denied (failing_task 0 ++ [LMain; LMain]) s1 = Some s2
    ∧ eg_err s2 = Some invalid_gossip
    ∧ ∀ r, main_at s2 = MReturned r → r = (None, Some invalid_gossip).
Proof.
  eexists _, _. split; [by vm_compute|]. split; [by vm_compute|].
  eapply (first_error_wins denied [A; B] (launch ++ launch ++ failing_task 1)
            (failing_task 0 ++ [LMain; LMain]) _ _ invalid_gossip);
    by vm_compute.
Defined.

Lemma checkLatency_never_stuck_witness :
  ∃ s, exec net launch (init [A; C]) = Some s
    ∧ length launch ≤ 8 * length [A; C] + 3
    ∧ ((∀ r, main_at s ≠ MReturned r) → ∃ l s', step net l s = Some s')
    ∧ ∃ sched' s' r, exec net sched' s = Some s' ∧ main_at s' = MReturned r.
Proof.
  eexists. split; [by vm_compute|].
  apply (checkLatency_never_stuck net [A; C] launch). by vm_compute.
Defined.

Lemma loop_blocked_iff_full_witness :
  ∃ s, exec net (replicate 40 LMain) (init (replicate 25 A)) = Some s
    ∧ (step net LMain s = None ↔ in_flight s = concurrency).
Proof.
  eexists. split; [by vm_compute|].
  apply (loop_blocked_iff_full net (replicate 25 A) (replicate 40 LMain));
    by vm_compute.
Defined.

Lemma nothing_moves_after_return_witness :
  ∃ s, exec net abc_sched (init [A; B; C]) = Some s
    ∧ (∀ l, step net l s = None)
    ∧ length (tasks s) = length [A; B; C]
    ∧ (∀ i n, [A; B; C] !! i = Some n →
         tasks s !! i = Some (Task n (TDone (task_error n (net i)))))
    ∧ bar_finished s = true.
Proof.
  eexists. split; [by vm_compute|].
  apply (nothing_moves_after_return net [A; B; C] abc_sched _
           (None, Some invalid_gossip)); by vm_compute.
Defined.

Lemma launch_order_witness :
  ∃ s, exec net (launch ++ launch) (init [A; B; C]) = Some s
    ∧ t_node <$> tasks s = take (length (tasks s)) [A; B; C]
    ∧ todo s = drop (length (tasks s)) [A; B; C].
Proof.
  eexists. split; [by vm_compute|].
  apply (launch_order net [A; B; C] (launch ++ launch)). by vm_compute.
Defined.

Lemma bar_within_total_witness :
  ∃ s, exec net (launch ++ whole_task 0) (init [A; B; C]) = Some s
    ∧ bar_current s ≤ length (tasks s)
    ∧ length (tasks s) ≤ length [A; B; C].
Proof.
  eexists. split; [by vm_compute|].
  apply (bar_within_total net [A; B; C] (launch ++ whole_task 0)).
  by vm_compute.
Defined.

Lemma first_line_is_minimum_witness :
  line_index (line_of 0 eC) = Z.of_nat 0
  ∧ (∃ e, e ∈ [eA; eC] ∧ line_of 0 eC = line_of 0 e)
  ∧ (0 = 0 → ∀ e, e ∈ [eA; eC] →
       (line_ms (line_of 0 eC) ≤ Milliseconds (Time e))%Z).
Proof.
  apply (first_line_is_minimum insertion_sort [eA; eC] 1 0 (line_of 0 eC)
           insertion_sort_contract).
  by vm_compute.
Defined.

Lemma no_line_without_positive_count_witness :
  printResult insertion_sort (replicate 10 eA) 18446744073709551615
  = Returned [].
Proof.
  apply no_line_without_positive_count; [vm_compute; lia|right; lia].
Defined.

Lemma ranking_needs_every_task_witness :
  ∃ url nodes,
    buildURL (H := UrlFragment.net_url) "mainnet-beta" = Ok url
    ∧ getClusterNodes (H := serving [A; C]) url = Ok {| Result := nodes |}
    ∧ ∀ i n, nodes !! i = Some n → task_error n (net i) = None.
Proof.
  eapply (@ranking_needs_every_task UrlFragment.net_url (serving [A; C])
            insertion_sort net "mainnet-beta" 10 (one_by_one 0 2));
    by vm_compute.
Defined.

Lemma short_list_never_panics_witness :
  ∃ run,
    main (net_url := UrlFragment.net_url) (net_http := serving [A; B; C])
      insertion_sort net "mainnet-beta" 10 abc_sched = Some run
    ∧ (exit_code (ended run) = 0%Z ∨ exit_code (ended run) = 1%Z).
Proof.
  eexists. split; [by vm_compute|].
  apply (@short_list_never_panics UrlFragment.net_url (serving [A; B; C])
           insertion_sort net "mainnet-beta"
           "http://api.mainnet-beta.solana.com" [A; B; C] 10 abc_sched);
    try (by vm_compute).
  - apply insertion_sort_contract.
  - vm_compute. lia.
Defined.

Lemma measured_peers_all_ranked_witness :
  ∃ run,
    main (net_url := UrlFragment.net_url) (net_http := serving [A; C])
      insertion_sort net "mainnet-beta" 1 (one_by_one 0 2) = Some run
    ∧ ∃ ranked,
        ended run = Exit0 (lines_from 0 ranked)
        ∧ ranked ≡ₚ measurements net 0 [A; C]
        ∧ ascending ranked
        ∧ length ranked = length [A; C].
Proof.
  eexists. split; [by vm_compute|].
  apply (@measured_peers_all_ranked UrlFragment.net_url (serving [A; C])
           insertion_sort net "mainnet-beta"
           "http://api.mainnet-beta.solana.com" [A; C] 1 (one_by_one 0 2));
    try (by vm_compute).
  - apply insertion_sort_contract.
  - vm_compute. lia.
  - intros [|[|i]] n Hi; vm_compute in Hi; try done;
      injection Hi as <-; vm_compute; by eexists.
Defined.
